(** * rift: money-muling detection engine

    A shallow embedding of the parts of the repository that its
    specification makes checkable statements about:

    - [app/agents/ibm_quantum_agent.py]: the cost-graph construction, the cut
      value, the classical greedy baseline, the processing of measurement
      counts and the fallback chain of [IBMQuantumAgent.run];
    - [app/utils/csv_parser.py]: [parse_csv];
    - [app/main.py]: the process-wide "latest" state written by
      [/api/analyze] and read by [/api/whatif].

    Conventions.  A Python [dict] whose iteration order is observable (the
    measurement counts) is an association list; the other dicts are [gmap]s
    and Python sets are [gset]s.  A Python exception is the [None] of an
    [option] (or the [inl] of a sum where the handler tells exception
    classes apart).  Python [float]s are idealised as exact rationals [Q];
    [round(x, 2)] is round-half-to-even on hundredths. *)

From Stdlib Require Import ZArith QArith Qround Qminmax List String Ascii Lia Lqa.
From stdpp Require Import gmap strings list sorting.

Local Open Scope nat_scope.

(** ** Python strings used as bitstrings *)

Module PyStr.

(** A measurement key is handled character by character. *)
Abbreviation pystr := (list ascii).

Definition of_string (s : string) : pystr := list_ascii_of_string s.

(** [s.replace(' ', '')] *)
Definition replace_space (s : pystr) : pystr :=
  filter (λ c, c ≠ " "%char) s.

Definition is_sign (c : ascii) : bool :=
  bool_decide (c = "+"%char) || bool_decide (c = "-"%char).

(** [s.zfill(width)]: zeros on the left, after a leading sign if any. *)
Definition zfill (width : nat) (s : pystr) : pystr :=
  if width <=? length s then s
  else match s with
       | c :: r =>
           if is_sign c then c :: replicate (width - length s) "0"%char ++ r
           else replicate (width - length s) "0"%char ++ s
       | [] => replicate width "0"%char
       end.

(** [s[-n:]]: the last [n] characters; [s[-0:]] is the whole string. *)
Definition last_n (n : nat) (s : pystr) : pystr :=
  if n =? 0 then s else drop (length s - n) s.

(** [bs.replace(' ', '').zfill(n)[-n:]] *)
Definition clean (n : nat) (bs : pystr) : pystr :=
  last_n n (zfill n (replace_space bs)).

(** The characters of a two-colouring. *)
Definition is_bit (c : ascii) : Prop := c = "0"%char ∨ c = "1"%char.

(** The boolean test of "a bit or a blank". *)
Definition bit_or_blank (c : ascii) : bool :=
  bool_decide (c = "0"%char) || bool_decide (c = "1"%char)
  || bool_decide (c = " "%char).

End PyStr.

Import PyStr.

(** ** The cost graph, the cut value and the classical baseline *)

Module MaxCut.

(** A qubit index, and an edge between two of them. *)
Abbreviation edge := (nat * nat)%type.

(** [networkx.DiGraph] as [_get_graph_edges] sees it: [G.edges()], the
    directed (sender, receiver) pairs in iteration order. *)
Abbreviation digraph_edges := (list (string * string)).

(** [enumerate(members)] *)
Definition enumerate {A} (l : list A) : list (nat * A) :=
  zip (seq 0 (length l)) l.

(** [{acc: i for i, acc in enumerate(members)}]: a repeated account keeps
    its last index. *)
Definition build_idx (members : list string) : gmap string nat :=
  foldl (λ idx p, <[p.2 := p.1]> idx) ∅ (enumerate members).

(** [(min(e), max(e))] *)
Definition key (e : edge) : edge := (Nat.min e.1 e.2, Nat.max e.1 e.2).

(** First loop: the edges of [G] with both ends among the members. *)
Definition member_edges (idx : gmap string nat) (G : digraph_edges)
  : list edge :=
  foldl (λ edges uv,
           match idx !! uv.1, idx !! uv.2 with
           | Some i, Some j => edges ++ [(i, j)]
           | _, _ => edges
           end) [] G.

(** Second loop, over a snapshot [list(edges)] while [edges] grows. *)
Definition add_reverse (edges : list edge) : list edge :=
  foldl (λ acc uv,
           if decide ((uv.2, uv.1) ∈ acc) then acc
           else acc ++ [(uv.2, uv.1)]) edges edges.

(** Third loop: keep the first edge of each unordered pair. *)
Definition dedup_step (st : gset edge * list edge) (e : edge)
  : gset edge * list edge :=
  if decide (key e ∈ st.1) then st
  else ({[key e]} ∪ st.1, st.2 ++ [e]).

Definition deduplicate (edges : list edge) : list edge :=
  (foldl dedup_step (∅, []) edges).2.

Definition _get_graph_edges (members : list string) (G : digraph_edges)
  : list edge :=
  deduplicate (add_reverse (member_edges (build_idx members) G)).

(** [_compute_maxcut_value]: [bitstring[u]] raises [IndexError] past the
    end of the string. *)
Fixpoint cut_loop (bitstring : pystr) (edges : list edge) (cut : nat)
  : option nat :=
  match edges with
  | [] => Some cut
  | (u, v) :: rest =>
      bu ← bitstring !! u;
      bv ← bitstring !! v;
      cut_loop bitstring rest (if bool_decide (bu ≠ bv) then S cut else cut)
  end.

Definition _compute_maxcut_value (bitstring : pystr) (edges : list edge)
  : option nat :=
  cut_loop bitstring edges 0.

(** [(u == i and partition[v] == side) or (v == i and partition[u] == side)],
    with Python's short-circuit evaluation. *)
Definition touches (partition : list nat) (side i : nat) (e : edge)
  : option bool :=
  left_holds ← (if decide (e.1 = i)
                then pv ← partition !! e.2; Some (bool_decide (pv = side))
                else Some false);
  if left_holds : bool then Some true
  else if decide (e.2 = i)
       then pu ← partition !! e.1; Some (bool_decide (pu = side))
       else Some false.

(** [sum(1 for u, v in edges if ...)] *)
Fixpoint count_cuts (partition : list nat) (side i : nat)
  (edges : list edge) : option nat :=
  match edges with
  | [] => Some 0
  | e :: rest =>
      b ← touches partition side i e;
      k ← count_cuts partition side i rest;
      Some (if b : bool then S k else k)
  end.

Fixpoint greedy_loop (edges : list edge) (range : list nat)
  (partition : list nat) : option (list nat) :=
  match range with
  | [] => Some partition
  | i :: rest =>
      cuts_0 ← count_cuts partition 0 i edges;
      cuts_1 ← count_cuts partition 1 i edges;
      greedy_loop edges rest
        (<[i := if cuts_0 <? cuts_1 then 1 else 0]> partition)
  end.

(** [str(b)] for the two values a partition entry takes. *)
Definition str_bit (b : nat) : ascii :=
  match b with 0 => "0"%char | _ => "1"%char end.

Definition _classical_greedy_maxcut (n : nat) (edges : list edge)
  : option (pystr * nat) :=
  partition ← greedy_loop edges (seq 0 n) (replicate n 0);
  let bs := str_bit <$> partition in
  cut ← _compute_maxcut_value bs edges;
  Some (bs, cut).

(** The other colour, and the partition with the two colours swapped. *)
Definition flip_bit (c : ascii) : ascii :=
  if decide (c = "0"%char) then "1"%char
  else if decide (c = "1"%char) then "0"%char else c.

Definition complement (bs : pystr) : pystr := flip_bit <$> bs.

(** No unordered pair of indices appears more than once. *)
Definition deduplicated (edges : list edge) : Prop := NoDup (key <$> edges).

(** No edge joins an index to itself. *)
Definition self_loop_free (edges : list edge) : Prop :=
  ∀ i, (i, i) ∉ edges.

(** Every index of every edge is a position of the [n] members. *)
Definition in_range (n : nat) (edges : list edge) : Prop :=
  Forall (λ e : edge, e.1 < n ∧ e.2 < n) edges.

(** The directed 4-cycle A→B→C→D→A of the specification's example. *)
Definition ring4_members : list string := ["A"; "B"; "C"; "D"]%string.
Definition ring4_graph : digraph_edges :=
  [("A", "B"); ("B", "C"); ("C", "D"); ("D", "A")]%string.
Definition ring4_edges : list edge := [(0, 1); (1, 2); (2, 3); (3, 0)].

End MaxCut.

(** ** Numbers *)

Module Numeric.

Local Open Scope Q_scope.

(** Round to the nearest integer, a tie going to the even neighbour. *)
Definition round_half_even (x : Q) : Z :=
  let f := Qfloor x in
  match Qcompare (x - inject_Z f) (1 # 2) with
  | Lt => f
  | Gt => (f + 1)%Z
  | Eq => if Z.even f then f else (f + 1)%Z
  end.

(** [round(x, 2)] *)
Definition round2 (x : Q) : Q :=
  inject_Z (round_half_even (x * 100)) / 100.

(** [a / b] on two Python ints: true division, [ZeroDivisionError] on a
    zero divisor. *)
Definition py_div (a b : Z) : option Q :=
  if (b =? 0)%Z then None else Some (inject_Z a / inject_Z b).

End Numeric.

Import Numeric.

(** ** [IBMQuantumAgent] *)

Module Agent.

Import MaxCut.

(** [counts]: the measurement dictionary, in its iteration order. *)
Abbreviation counts_dict := (list (pystr * Z)).

(** [sum(counts.values())] *)
Definition total_shots (counts : counts_dict) : Z :=
  foldl (λ acc p, (acc + p.2)%Z) 0%Z counts.

(** [sorted(counts.items(), key=lambda x: x[1], reverse=True)]: the sort
    is stable, so among equal counts the dictionary order is kept. *)
Fixpoint insert_desc (x : pystr * Z) (l : counts_dict) : counts_dict :=
  match l with
  | [] => [x]
  | y :: r => if (y.2 <=? x.2)%Z then x :: y :: r else y :: insert_desc x r
  end.

Definition sorted_counts (counts : counts_dict) : counts_dict :=
  foldr insert_desc [] counts.

(** The search for the best partition among [sorted_counts[:20]]. *)
Fixpoint best_loop (n : nat) (edges : list edge) (top : counts_dict)
  (best_bs : option pystr) (best_cut : Z) : option (option pystr * Z) :=
  match top with
  | [] => Some (best_bs, best_cut)
  | (bs, _) :: rest =>
      let bs_clean := clean n bs in
      cut ← _compute_maxcut_value bs_clean edges;
      if (best_cut <? Z.of_nat cut)%Z
      then best_loop n edges rest (Some bs_clean) (Z.of_nat cut)
      else best_loop n edges rest best_bs best_cut
  end.

(** [[members[i] for i in range(n) if best_bs[i] == c]]; subscripting
    [None] raises [TypeError]. *)
Fixpoint select_group (members : list string) (best_bs : option pystr)
  (c : ascii) (range : list nat) : option (list string) :=
  match range with
  | [] => Some []
  | i :: rest =>
      bs ← best_bs;
      b ← bs !! i;
      if decide (b = c)
      then m ← members !! i;
           tl ← select_group members best_bs c rest;
           Some (m :: tl)
      else select_group members best_bs c rest
  end.

(** [group_1 if len(group_1) >= len(group_0) else group_0], and the other
    group. *)
Definition dominant_of (group_0 group_1 : list string) : list string :=
  if length group_0 <=? length group_1 then group_1 else group_0.

Definition minority_of (group_0 group_1 : list string) : list string :=
  if length group_0 <=? length group_1 then group_0 else group_1.

(** [sum(cnt / total for bs, cnt in top if clean(bs) == best_bs)] *)
Fixpoint mass_loop (n : nat) (total : Z) (best_bs : option pystr)
  (top : counts_dict) (acc : Q) : option Q :=
  match top with
  | [] => Some acc
  | (bs, cnt) :: rest =>
      if decide (Some (clean n bs) = best_bs)
      then p ← py_div cnt total;
           mass_loop n total best_bs rest (acc + p)%Q
      else mass_loop n total best_bs rest acc
  end.

(** [for acc in group: quantum_scores[acc] = score] *)
Definition assign_scores (group : list string) (score : Q)
  (scores : gmap string Q) : gmap string Q :=
  foldl (λ m acc, <[acc := score]> m) scores group.

Definition dominant_score (risk_score dominant_prob : Q) : Q :=
  round2 (Qmin (risk_score * (9 # 10) + dominant_prob * 10) 100).

Definition minority_score (risk_score : Q) : Q :=
  round2 (Qmin (risk_score * (6 # 10)) 100).

(** [round((best_cut - classical_cut) / max(max_possible_cut, 1) * 100, 2)] *)
Definition advantage (best_cut : Z) (classical_cut max_possible_cut : nat)
  : Q :=
  round2 (inject_Z (best_cut - Z.of_nat classical_cut)
          / inject_Z (Z.max (Z.of_nat max_possible_cut) 1) * 100).

(** The dictionary returned by [_process_counts].  The fields
    [top_measurements], [noise_entropy], [execution_time_seconds] and the
    two circuit angles are left out; the one exception their computation
    can raise is kept in [_process_counts]. *)
Record PartitionResult := {
  hardware : string;
  backend : string;
  ring_id : string;
  n_qubits : nat;
  shots : nat;
  edges_analyzed : nat;
  best_bitstring : option pystr;
  best_cut_value : Z;
  max_possible_cut : nat;
  group_0 : list string;
  group_1 : list string;
  classical_bitstring : pystr;
  classical_cut_value : nat;
  quantum_advantage_pct : Q;
  quantum_scores : gmap string Q;
  suspicious_set : list string;
  total_unique_bitstrings : nat;
}.

Definition _process_counts (counts : counts_dict) (members : list string)
  (ring_id : string) (risk_score : Q) (edges : list edge)
  (backend_name hardware : string) (shots : nat) : option PartitionResult :=
  let n := length members in
  let total := total_shots counts in
  let sorted := sorted_counts counts in
  '(best_bs, best_cut) ← best_loop n edges (take 20 sorted) None (-1)%Z;
  group_0 ← select_group members best_bs "0"%char (seq 0 n);
  group_1 ← select_group members best_bs "1"%char (seq 0 n);
  '(classical_bs, classical_cut) ← _classical_greedy_maxcut n edges;
  let max_possible_cut := length edges in
  let quantum_advantage := advantage best_cut classical_cut max_possible_cut in
  let dominant_group := dominant_of group_0 group_1 in
  let minority_group := minority_of group_0 group_1 in
  dominant_prob ← mass_loop n total best_bs (take 10 sorted) 0%Q;
  let scores :=
    assign_scores minority_group (minority_score risk_score)
      (assign_scores dominant_group
         (dominant_score risk_score dominant_prob) ∅) in
  (* probs = [cnt / total for _, cnt in sorted_counts] *)
  _ ← mapM (λ p : pystr * Z, py_div p.2 total) sorted;
  Some {| hardware := hardware;
          backend := backend_name;
          ring_id := ring_id;
          n_qubits := n;
          shots := shots;
          edges_analyzed := length edges;
          best_bitstring := best_bs;
          best_cut_value := best_cut;
          max_possible_cut := max_possible_cut;
          group_0 := group_0;
          group_1 := group_1;
          classical_bitstring := classical_bs;
          classical_cut_value := classical_cut;
          quantum_advantage_pct := quantum_advantage;
          quantum_scores := scores;
          suspicious_set := dominant_group;
          total_unique_bitstrings := length counts |}.

(** Descending order of the counts. *)
Definition descending : relation (pystr * Z) := λ p q, (q.2 ≤ p.2)%Z.

(** [top] holds the [k] most frequent samples of [counts] (all of them when
    there are fewer): no sample left out was observed more often than one
    taken. *)
Definition most_frequent (k : nat) (counts top : counts_dict) : Prop :=
  length top = Nat.min k (length counts)
  ∧ ∃ others, top ++ others ≡ₚ counts
              ∧ ∀ p q, p ∈ top → q ∈ others → (q.2 ≤ p.2)%Z.

(** [best] is the highest cut value among the cleaned samples of [top]. *)
Definition highest_cut (n : nat) (edges : list edge) (top : counts_dict)
  (best : Z) : Prop :=
  (∃ p cut, p ∈ top ∧ _compute_maxcut_value (clean n p.1) edges = Some cut
            ∧ best = Z.of_nat cut)
  ∧ ∀ p, p ∈ top →
         ∃ cut, _compute_maxcut_value (clean n p.1) edges = Some cut
                ∧ (Z.of_nat cut ≤ best)%Z.

(** Every observed count is positive, as in a histogram of shots. *)
Definition positive_counts (counts : counts_dict) : Prop :=
  Forall (λ p : pystr * Z, (0 < p.2)%Z) counts.

(** Every key is a two-colouring, possibly with blanks between registers. *)
Definition bit_keys (counts : counts_dict) : Prop :=
  Forall (λ p : pystr * Z, Forall (λ c, is_bit c ∨ c = " "%char) p.1) counts.

(** The [reason] of a fallback result; the text of the caught exception in
    ["aer_error: ..."] is not kept. *)
Inductive FallbackReason :=
| insufficient_members
| qiskit_unavailable
| no_edges
| aer_error.

Record FallbackResult := {
  fb_ring_id : string;
  fb_reason : FallbackReason;
  fb_quantum_scores : gmap string Q;
  fb_suspicious_set : list string;
  fb_quantum_advantage_pct : Q;
}.

(** [{acc: 50.0 for acc in members}] *)
Definition baseline_scores (members : list string) : gmap string Q :=
  foldl (λ m acc, <[acc := 50%Q]> m) ∅ members.

Definition _fallback_result (ring_id : string) (members : list string)
  (reason : FallbackReason) : FallbackResult :=
  {| fb_ring_id := ring_id;
     fb_reason := reason;
     fb_quantum_scores := baseline_scores members;
     fb_suspicious_set := members;
     fb_quantum_advantage_pct := 0%Q |}.

(** What [run] returns: one of the two dictionaries. *)
Inductive AgentResult :=
| Processed (r : PartitionResult)
| Fallback (f : FallbackResult).

Definition result_scores (r : AgentResult) : gmap string Q :=
  match r with
  | Processed r => quantum_scores r
  | Fallback f => fb_quantum_scores f
  end.

Definition result_advantage (r : AgentResult) : Q :=
  match r with
  | Processed r => quantum_advantage_pct r
  | Fallback f => fb_quantum_advantage_pct f
  end.

(** [top_ring]: a dictionary read with [.get(key, default)]. *)
Record Ring := {
  member_accounts : option (list string);
  ring_id_field : option string;
  risk_score : option Q;
}.

(** The world outside the agent: the two import guards, the token of the
    environment, and the outcome of every call into qiskit.  [None] is a
    raised exception. *)
Record World := {
  IBM_RUNTIME_AVAILABLE : bool;
  QISKIT_AVAILABLE : bool;
  ibm_token : string;
  (** [QiskitRuntimeService(...)] returns *)
  service_connects : bool;
  (** [service.least_busy(min_num_qubits=n, ...).name] *)
  least_busy : nat → option string;
  (** circuit, transpile, [Sampler(backend).run(...)], [get_counts()] *)
  ibm_counts : nat → list edge → option counts_dict;
  (** circuit, transpile, [AerSimulator().run(...)], [get_counts()] *)
  aer_counts : nat → list edge → option counts_dict;
}.

Definition MAX_QUBITS_REAL : nat := 5.
Definition MAX_QUBITS_SIM : nat := 8.
Definition SHOTS_REAL : nat := 1024.
Definition SHOTS_SIM : nat := 2048.

Section Run.

Variable W : World.
Variable G : digraph_edges.

Definition _connect : bool :=
  if negb (IBM_RUNTIME_AVAILABLE W) || bool_decide (ibm_token W = ""%string)
  then false
  else service_connects W.

(** Called only after [_connect] succeeded, so [_service] is set. *)
Definition _get_best_backend (n_qubits : nat) : option string :=
  least_busy W n_qubits.

(** [None] is the [return None] of the source; an exception inside its
    [try] block ends in the same [return None]. *)
Definition _run_on_ibm (members : list string) (ring_id : string)
  (risk_score : Q) : option PartitionResult :=
  let n := length members in
  let edges := _get_graph_edges members G in
  match edges with
  | [] => None
  | _ =>
      backend_name ← _get_best_backend n;
      counts ← ibm_counts W n edges;
      _process_counts counts members ring_id risk_score edges
        backend_name "real" SHOTS_REAL
  end.

Definition _run_on_aer (members : list string) (ring_id : string)
  (risk_score : Q) : AgentResult :=
  let n := length members in
  let edges := _get_graph_edges members G in
  match edges with
  | [] => Fallback (_fallback_result ring_id members no_edges)
  | _ =>
      match
        counts ← aer_counts W n edges;
        _process_counts counts members ring_id risk_score edges
          "aer_simulator" "simulator" SHOTS_SIM
      with
      | Some r => Processed r
      | None => Fallback (_fallback_result ring_id members aer_error)
      end
  end.

Definition run (top_ring : Ring) : AgentResult :=
  let members := default [] (member_accounts top_ring) in
  let ring_id := default "RING_001"%string (ring_id_field top_ring) in
  let risk_score := default 50%Q (risk_score top_ring) in
  if length members <? 2
  then Fallback (_fallback_result ring_id members insufficient_members)
  else
    let from_ibm :=
      if _connect
      then _run_on_ibm (take MAX_QUBITS_REAL members) ring_id risk_score
      else None in
    match from_ibm with
    | Some result => Processed result
    | None =>
        if QISKIT_AVAILABLE W
        then _run_on_aer (take MAX_QUBITS_SIM members) ring_id risk_score
        else Fallback (_fallback_result ring_id members qiskit_unavailable)
    end.

(** The [try] block of [_run_on_aer]: [None] when anything in it raises. *)
Definition aer_attempt (members : list string) (ring_id : string)
  (risk_score : Q) : option PartitionResult :=
  counts ← aer_counts W (length members) (_get_graph_edges members G);
  _process_counts counts members ring_id risk_score
    (_get_graph_edges members G) "aer_simulator" "simulator" SHOTS_SIM.

End Run.

(** [res] is the deterministic fallback over [covered]: exactly these
    accounts are scored, each with 50.0, they are the suspicious set, and
    the advantage is 0. *)
Definition baseline_fallback (covered : list string) (res : AgentResult)
  : Prop :=
  ∃ f, res = Fallback f
       ∧ fb_suspicious_set f = covered
       ∧ (∀ a, a ∈ covered → fb_quantum_scores f !! a = Some 50%Q)
       ∧ (∀ a, a ∉ covered → fb_quantum_scores f !! a = None)
       ∧ fb_quantum_advantage_pct f = 0%Q.

(** A world without IBM token and with a simulator that always observes
    the two alternating colourings of four qubits; a ring of nine accounts
    none of which transacts with another; the 4-cycle as a ring. *)
Definition simulator_world : World :=
  {| IBM_RUNTIME_AVAILABLE := true;
     QISKIT_AVAILABLE := true;
     ibm_token := "";
     service_connects := false;
     least_busy := λ _, None;
     ibm_counts := λ _ _, None;
     aer_counts := λ _ _, Some [(of_string "0101", 1200%Z);
                                (of_string "1010", 848%Z)] |}.

Definition ring_of (members : list string) (risk : Q) : Ring :=
  {| member_accounts := Some members;
     ring_id_field := Some "RING_001"%string;
     risk_score := Some risk |}.

Definition nine_members : list string :=
  ["A"; "B"; "C"; "D"; "E"; "F"; "G"; "H"; "I"]%string.

(** The members a fallback of [run] covers: the whole ring when it is found
    too small or qiskit is missing, the first [MAX_QUBITS_SIM] members when
    the simulator path gives up. *)
Definition fallback_cover (W : World) (members : list string) : list string :=
  if (length members <? 2) || negb (QISKIT_AVAILABLE W) then members
  else take MAX_QUBITS_SIM members.

End Agent.

(** ** [parse_csv] *)

Module CsvParser.

Definition REQUIRED_COLUMNS : list string :=
  ["transaction_id"; "sender_id"; "receiver_id"; "amount"; "timestamp"]%string.

(** [str.isspace] on the ASCII range. *)
Definition is_space (c : ascii) : bool :=
  let k := nat_of_ascii c in
  (9 <=? k) && (k <=? 13) || (28 <=? k) && (k <=? 32).

Fixpoint lstrip (s : list ascii) : list ascii :=
  match s with
  | c :: r => if is_space c then lstrip r else s
  | [] => []
  end.

(** [s.strip()] *)
Definition strip (s : list ascii) : list ascii :=
  reverse (lstrip (reverse (lstrip s))).

(** [s.lower()] on the ASCII range. *)
Definition lower (c : ascii) : ascii :=
  let k := nat_of_ascii c in
  if (65 <=? k) && (k <=? 90) then ascii_of_nat (k + 32) else c.

(** [col.strip().lower().replace(" ", "_")] *)
Definition normalise (col : string) : string :=
  string_of_list_ascii
    ((λ c, if decide (c = " "%char) then "_"%char else c)
       <$> (lower <$> strip (list_ascii_of_string col))).

(** [[col for col in REQUIRED_COLUMNS if col not in df.columns]] *)
Definition missing_columns (columns : list string) : list string :=
  filter (λ col, col ∉ columns) REQUIRED_COLUMNS.

Inductive ParseError :=
| MissingRequiredColumns (missing : list string).

Section Parse.

(** A field of the file as [pd.read_csv] delivers it, and the two pandas
    coercions with [errors="coerce"]: [None] is [NaN], respectively [NaT].
    A timestamp is a number of seconds. *)
Variable Cell : Type.
Variable to_numeric : Cell → option Q.
Variable to_datetime : Cell → option Z.

(** A row of the frame read from the file, seen through the five required
    columns; an empty sender or receiver field is read as [NaN]. *)
Record RawRow := {
  raw_transaction_id : Cell;
  raw_sender_id : option string;
  raw_receiver_id : option string;
  raw_amount : Cell;
  raw_timestamp : Cell;
}.

(** The frame [pd.read_csv] returns: the header as written in the file and
    the rows. *)
Record RawFrame := {
  columns : list string;
  rows : list RawRow;
}.

(** A row after the two coercions. *)
Record Row := {
  row_transaction_id : Cell;
  row_sender_id : option string;
  row_receiver_id : option string;
  row_amount : option Q;
  row_timestamp : option Z;
}.

Definition coerce (r : RawRow) : Row :=
  {| row_transaction_id := raw_transaction_id r;
     row_sender_id := raw_sender_id r;
     row_receiver_id := raw_receiver_id r;
     row_amount := to_numeric (raw_amount r);
     row_timestamp := to_datetime (raw_timestamp r) |}.

(** A row of the frame after [dropna]: none of the four fields is missing. *)
Record Transaction := {
  transaction_id : Cell;
  sender_id : string;
  receiver_id : string;
  amount : Q;
  timestamp : Z;
}.

Definition complete (r : Row) : option Transaction :=
  s ← row_sender_id r;
  t ← row_receiver_id r;
  a ← row_amount r;
  ts ← row_timestamp r;
  Some {| transaction_id := row_transaction_id r;
          sender_id := s; receiver_id := t; amount := a; timestamp := ts |}.

(** [df.dropna(subset=["sender_id", "receiver_id", "amount", "timestamp"])] *)
Definition dropna (df : list Row) : list Transaction := omap complete df.

Record EdgeData := {
  total_amount : Q;
  tx_count : nat;
  transactions : list (Cell * Q * Z);
}.

Record NodeData := {
  total_sent : Q;
  total_received : Q;
  tx_count_sent : nat;
  tx_count_recv : nat;
  tx_count_total : nat;
  in_degree : nat;
  out_degree : nat;
  (** [None] is [float("inf")] *)
  avg_time_gap : option Q;
  min_time_gap : option Q;
}.

(** The [networkx.DiGraph] that is built: node and edge attributes. *)
Record DiGraph := {
  nodes : gmap string NodeData;
  edges : gmap (string * string) EdgeData;
}.

Record Metadata := {
  total_transactions : nat;
  total_accounts : nat;
  total_edges : nat;
  (** [None] is [NaT] *)
  date_range_start : option Z;
  date_range_end : option Z;
}.

Definition sum_amounts (grp : list Transaction) : Q :=
  foldl (λ acc r, (acc + amount r)%Q) 0%Q grp.

(** [set(df["sender_id"].unique()) | set(df["receiver_id"].unique())] *)
Definition all_accounts (df : list Transaction) : gset string :=
  list_to_set (sender_id <$> df) ∪ list_to_set (receiver_id <$> df).

Definition pair_of (r : Transaction) : string * string :=
  (sender_id r, receiver_id r).

(** The group of one (sender, receiver) pair and the edge made of it. *)
Definition edge_of_group (grp : list Transaction) : EdgeData :=
  {| total_amount := sum_amounts grp;
     tx_count := length grp;
     transactions := (λ r, (transaction_id r, amount r, timestamp r)) <$> grp |}.

Definition build_edges (df : list Transaction)
  : gmap (string * string) EdgeData :=
  list_to_map
    ((λ k, (k, edge_of_group (filter (λ r, pair_of r = k) df)))
       <$> elements (list_to_set (C := gset (string * string)) (pair_of <$> df))).

(** The timestamps an account takes part in, as sender then as receiver,
    in increasing order, and the gaps between consecutive ones. *)
Definition account_times (df : list Transaction) (account : string) : list Z :=
  merge_sort Z.le
    ((timestamp <$> filter (λ r, sender_id r = account) df)
       ++ (timestamp <$> filter (λ r, receiver_id r = account) df)).

Fixpoint gaps (ts : list Z) : list Z :=
  match ts with
  | t1 :: (t2 :: _) as rest => (t2 - t1)%Z :: gaps rest
  | _ => []
  end.

Definition mean (l : list Z) : option Q :=
  match l with
  | [] => None
  | _ => Some (inject_Z (foldl Z.add 0%Z l) / inject_Z (Z.of_nat (length l)))%Q
  end.

Definition minimum (l : list Z) : option Z :=
  match l with
  | [] => None
  | x :: r => Some (foldl Z.min x r)
  end.

Definition maximum (l : list Z) : option Z :=
  match l with
  | [] => None
  | x :: r => Some (foldl Z.max x r)
  end.

Definition node_data (df : list Transaction)
  (E : gmap (string * string) EdgeData) (node : string) : NodeData :=
  let sent := filter (λ r, sender_id r = node) df in
  let recv := filter (λ r, receiver_id r = node) df in
  let diffs := gaps (account_times df node) in
  {| total_sent := sum_amounts sent;
     total_received := sum_amounts recv;
     tx_count_sent := length sent;
     tx_count_recv := length recv;
     tx_count_total := length sent + length recv;
     in_degree := size (filter (λ kv, kv.1.2 = node) E);
     out_degree := size (filter (λ kv, kv.1.1 = node) E);
     avg_time_gap := mean diffs;
     min_time_gap := inject_Z <$> minimum diffs |}.

Definition build_graph (df : list Transaction) : DiGraph :=
  let E := build_edges df in
  {| nodes := list_to_map
                ((λ a, (a, node_data df E a)) <$> elements (all_accounts df));
     edges := E |}.

Definition parse_csv (frame : RawFrame)
  : ParseError + (list Transaction * DiGraph * Metadata) :=
  match missing_columns (normalise <$> columns frame) with
  | (_ :: _) as missing => inl (MissingRequiredColumns missing)
  | [] =>
      let df := dropna (coerce <$> rows frame) in
      let G := build_graph df in
      let metadata :=
        {| total_transactions := length df;
           total_accounts := size (all_accounts df);
           total_edges := size (edges G);
           date_range_start := minimum (timestamp <$> df);
           date_range_end := maximum (timestamp <$> df) |} in
      inr (df, G, metadata)
  end.

(** A row survives [dropna] when its sender and receiver are present, its
    amount is numeric and its timestamp parses. *)
Definition valid_row (r : RawRow) : Prop :=
  is_Some (raw_sender_id r) ∧ is_Some (raw_receiver_id r)
  ∧ is_Some (to_numeric (raw_amount r))
  ∧ is_Some (to_datetime (raw_timestamp r)).

#[local] Instance valid_row_dec r : Decision (valid_row r).
Proof. unfold valid_row. apply _. Defined.

Definition retained (rows : list RawRow) : list RawRow :=
  filter valid_row rows.

End Parse.

(** Cells that carry the outcome of their coercion, for examples: an
    amount or a timestamp that does not parse is [None]. *)
Definition example_numeric (c : option Z) : option Q := inject_Z <$> c.
Definition example_datetime (c : option Z) : option Z := c.

Definition example_row (id : Z) (sender receiver : option string)
  (amount timestamp : option Z) : RawRow (option Z) :=
  {| raw_transaction_id := Some id;
     raw_sender_id := sender;
     raw_receiver_id := receiver;
     raw_amount := amount;
     raw_timestamp := timestamp |}.

Definition example_header : list string :=
  [" Transaction_ID"; "sender id"; "RECEIVER_ID "; "amount"; "Timestamp"]%string.

(** Two valid transfers A→B, one B→C, one row without amount and one
    without sender. *)
Definition example_rows : list (RawRow (option Z)) :=
  [ example_row 1 (Some "A") (Some "B") (Some 10) (Some 100);
    example_row 2 (Some "A") (Some "B") (Some 5) (Some 160);
    example_row 3 (Some "B") (Some "A") None (Some 170);
    example_row 4 (Some "B") (Some "C") (Some 7) (Some 130);
    example_row 5 None (Some "C") (Some 7) (Some 130) ]%string%Z.

End CsvParser.

(** ** The endpoints of [main.py] that touch the process-wide state *)

Module Main.

Import CsvParser.

(** The exception classes the handler of [analyze_csv] tells apart. *)
Inductive exn :=
| ValueError
| OtherException.

(** A JSON value, as [request.json()] returns it. *)
#[local] Set Warnings "-register-all".
Inductive json :=
| JNull
| JBool (b : bool)
| JNum (q : Q)
| JStr (s : string)
| JArr (items : list json)
| JObj (fields : list (string * json)).

(** Python truthiness of a decoded JSON value: [not x] is its negation. *)
Definition truthy (x : json) : bool :=
  match x with
  | JNull => false
  | JBool b => b
  | JNum q => negb (Qeq_bool q 0)
  | JStr s => negb (bool_decide (s = ""%string))
  | JArr items => negb (bool_decide (items = []))
  | JObj fields => negb (bool_decide (fields = []))
  end.

(** Lookup in a decoded JSON object: of a repeated key the last one counts. *)
Fixpoint field (name : string) (fields : list (string * json)) : option json :=
  match fields with
  | [] => None
  | (k, v) :: rest =>
      match field name rest with
      | Some later => Some later
      | None => if decide (k = name) then Some v else None
      end
  end.

Inductive HTTPException :=
| Http (status_code : nat).

Section Endpoints.

Variable Cell : Type.
Variable to_numeric : Cell → option Q.
Variable to_datetime : Cell → option Z.

Abbreviation DataFrame := (list (Transaction Cell)).
Abbreviation Graph := (DiGraph Cell).

(** [final_output], and the code between the parse and the store of
    [latest_results]: the agents, the aggregator, the disruption engine, the
    crime team and the visualisation data.  None of it writes the three
    globals. *)
Variable FinalOutput : Type.
Variable pipeline : DataFrame → Graph → Metadata → exn + FinalOutput.

(** What follows the store: the log line reading the summary and
    [JSONResponse(content=final_output)], which may raise too. *)
Variable json_response : FinalOutput → exn + FinalOutput.

(** [WhatIfSimulator(G, df, fraud_rings, suspicious_accounts).simulate(nodes)] *)
Variable WhatIfResult : Type.
Variable simulate :
  Graph → option DataFrame → FinalOutput → json → WhatIfResult.

(** The module globals; [latest_results = {}] is [None]. *)
Record AppState := {
  latest_results : option FinalOutput;
  latest_graph : option Graph;
  latest_df : option DataFrame;
}.

Definition initial_state : AppState :=
  {| latest_results := None; latest_graph := None; latest_df := None |}.

(** The two [except] clauses. *)
Definition to_http (e : exn) : HTTPException :=
  match e with
  | ValueError => Http 400
  | OtherException => Http 500
  end.

(** [analyze_csv].  [upload] is the outcome of [file.read()], the decoding
    and [pd.read_csv]: an exception or the frame. *)
Definition analyze_csv (st : AppState) (upload : exn + RawFrame Cell)
  : AppState * (HTTPException + FinalOutput) :=
  match upload with
  | inl e => (st, inl (to_http e))
  | inr frame =>
      match parse_csv Cell to_numeric to_datetime frame with
      | inl (MissingRequiredColumns _) => (st, inl (to_http ValueError))
      | inr (df, G, metadata) =>
          (* latest_graph = G; latest_df = df *)
          let st1 := {| latest_results := latest_results st;
                        latest_graph := Some G;
                        latest_df := Some df |} in
          match pipeline df G metadata with
          | inl e => (st1, inl (to_http e))
          | inr final_output =>
              (* latest_results = final_output *)
              let st2 := {| latest_results := Some final_output;
                            latest_graph := latest_graph st1;
                            latest_df := latest_df st1 |} in
              match json_response final_output with
              | inl e => (st2, inl (to_http e))
              | inr content => (st2, inr content)
              end
          end
      end
  end.

(** [not latest_graph]: [None], or a graph without nodes
    ([len(G)] is its number of nodes). *)
Definition graph_truthy (g : option Graph) : bool :=
  match g with
  | None => false
  | Some G => negb (bool_decide (size (nodes Cell G) = 0))
  end.

(** The guard of the endpoints that read the stored analysis: a stored
    graph with at least one node and stored results. *)
Definition analysis_stored (st : AppState) : Prop :=
  graph_truthy (latest_graph st) = true ∧ is_Some (latest_results st).

Inductive WhatIfResponse :=
| Rejected (e : HTTPException)
| Simulated (result : WhatIfResult).

(** One construction and call of the simulator. *)
Record SimulatorCall := {
  call_graph : Graph;
  call_df : option DataFrame;
  call_results : FinalOutput;
  call_nodes : json;
}.

(** [whatif_simulate]: the state after the request, the response and the
    simulator calls made.  A body that is not an object has no [.get]:
    [AttributeError], answered with status 500. *)
Definition whatif_simulate (st : AppState) (body : json)
  : AppState * WhatIfResponse * list SimulatorCall :=
  match latest_graph st, graph_truthy (latest_graph st), latest_results st with
  | Some G, true, Some results =>
      match body with
      | JObj fields =>
          let nodes_to_remove := default (JArr []) (field "nodes" fields) in
          if negb (truthy nodes_to_remove)
          then (st, Rejected (Http 400), [])
          else (st,
                Simulated (simulate G (latest_df st) results nodes_to_remove),
                [ {| call_graph := G; call_df := latest_df st;
                     call_results := results;
                     call_nodes := nodes_to_remove |} ])
      | _ => (st, Rejected (Http 500), [])
      end
  | _, _, _ => (st, Rejected (Http 400), [])
  end.

End Endpoints.

(** *** [_build_graph_viz_data] *)

(** The graph as the function reads it: [G.nodes()] and
    [G.edges(data=True)] in their iteration order, with the two edge
    attributes used. *)
Record GraphView := {
  view_nodes : list string;
  view_edges : list (string * string * (Q * nat));
}.

(** [list(G.predecessors(node))] and [list(G.successors(node))]: networkx
    raises for a node that is not in the graph. *)
Definition predecessors (G : GraphView) (node : string) : option (list string) :=
  if decide (node ∈ view_nodes G)
  then Some ((λ e, e.1.1) <$> filter (λ e, e.1.2 = node) (view_edges G))
  else None.

Definition successors (G : GraphView) (node : string) : option (list string) :=
  if decide (node ∈ view_nodes G)
  then Some ((λ e, e.1.2) <$> filter (λ e, e.1.1 = node) (view_edges G))
  else None.

(** What networkx guarantees of a graph: no node is listed twice and both
    ends of an edge are nodes. *)
Definition well_formed_view (G : GraphView) : Prop :=
  NoDup (view_nodes G)
  ∧ ∀ e, e ∈ view_edges G → e.1.1 ∈ view_nodes G ∧ e.1.2 ∈ view_nodes G.

Record SuspiciousAccount := {
  account_id : string;
  suspicion_score : Q;
  detected_patterns : list string;
  account_ring_id : option string;
}.

(** The two entries of [results] that are read. *)
Record VizResults := {
  suspicious_accounts : list SuspiciousAccount;
  fraud_rings : list (list string);
}.

Record VizNode := {
  node_id : string;
  node_suspicious : bool;
  node_score : Q;
  node_color : string;
  node_size : Q;
  node_border_width : nat;
  node_patterns : list string;
  node_ring_id : option string;
}.

Record VizEdge := {
  edge_from : string;
  edge_to : string;
  edge_suspicious : bool;
  edge_width : Q;
  edge_amount : Q;
  edge_tx_count : nat;
}.

Record VizData := {
  viz_nodes : list VizNode;
  viz_edges : list VizEdge;
  truncated : bool;
  total_nodes : nat;
  total_edges : nat;
}.

Definition color_palette : list string :=
  ["#ff4444"; "#ff8800"; "#ffcc00"; "#44ff44";
   "#4488ff"; "#aa44ff"; "#ff44aa"; "#44ffcc";
   "#ff6644"; "#66ccff"; "#cc44ff"; "#ffaa44"]%string.

(** [ring_colors]: a member of several rings keeps the colour of the last. *)
Definition ring_colors (rings : list (list string)) : gmap string string :=
  foldl (λ colors p,
           let color := default ""%string
                          (color_palette !! (p.1 `mod` length color_palette)) in
           foldl (λ colors member, <[member := color]> colors) colors p.2)
    ∅ (zip (seq 0 (length rings)) rings).

(** [{sa["account_id"]: sa for sa in ...}] *)
Definition suspicious_map (accounts : list SuspiciousAccount)
  : gmap string SuspiciousAccount :=
  foldl (λ m sa, <[account_id sa := sa]> m) ∅ accounts.

Section Viz.

(** The two caps, read from the environment. *)
Variable MAX_GRAPH_VIZ_NODES : Z.
Variable MAX_GRAPH_VIZ_EDGES : Z.

(** [len(include_nodes) >= MAX_GRAPH_VIZ_NODES] *)
Definition at_cap (include_nodes : gset string) : bool :=
  (MAX_GRAPH_VIZ_NODES <=? Z.of_nat (size include_nodes))%Z.

(** The inner loop over the neighbours of one suspicious node. *)
Fixpoint add_neighbours (nbs : list string) (include_nodes : gset string)
  : gset string :=
  match nbs with
  | [] => include_nodes
  | nb :: rest =>
      let include_nodes := {[nb]} ∪ include_nodes in
      if at_cap include_nodes then include_nodes
      else add_neighbours rest include_nodes
  end.

(** The loop over [list(suspicious_ids)]. *)
Fixpoint add_neighbourhoods (G : GraphView) (suspicious : list string)
  (include_nodes : gset string) : option (gset string) :=
  match suspicious with
  | [] => Some include_nodes
  | node :: rest =>
      if at_cap include_nodes then Some include_nodes
      else
        preds ← predecessors G node;
        succs ← successors G node;
        add_neighbourhoods G rest (add_neighbours (preds ++ succs) include_nodes)
  end.

(** The loop over [G.nodes()] that fills up to the cap. *)
Fixpoint fill_nodes (nodes : list string) (include_nodes : gset string)
  : gset string :=
  match nodes with
  | [] => include_nodes
  | node :: rest =>
      let include_nodes :=
        if decide (node ∈ include_nodes) then include_nodes
        else {[node]} ∪ include_nodes in
      if at_cap include_nodes then include_nodes
      else fill_nodes rest include_nodes
  end.

(** [include_nodes]; a set is iterated in the order of [elements]. *)
Definition included (G : GraphView) (suspicious_ids : gset string)
  : option (gset string) :=
  with_neighbours ←
    (if at_cap suspicious_ids then Some suspicious_ids
     else add_neighbourhoods G (elements suspicious_ids) suspicious_ids);
  Some (if at_cap with_neighbours then with_neighbours
        else fill_nodes (view_nodes G) with_neighbours).

(** One entry of [nodes]; [G.nodes[node]] raises for a node that is not in
    the graph.  The tooltip text is left out. *)
Definition viz_node (G : GraphView) (results : VizResults)
  (suspicious_ids : gset string) (node : string) : option VizNode :=
  if decide (node ∈ view_nodes G) then
    let is_suspicious := bool_decide (node ∈ suspicious_ids) in
    let sa := suspicious_map (suspicious_accounts results) !! node in
    let score := default 0%Q (suspicion_score <$> sa) in
    let ring_color fallback :=
      default fallback (ring_colors (fraud_rings results) !! node) in
    let '(color, size, border_width) :=
      if is_suspicious && Qle_bool 70 score
      then (ring_color "#ff2222"%string, (25 + score * (3 # 10))%Q, 4)
      else if is_suspicious && Qle_bool 40 score
      then (ring_color "#ff8800"%string, (20 + score * (2 # 10))%Q, 3)
      else if is_suspicious
      then (ring_color "#ffcc00"%string, 18%Q, 2)
      else ("#336699"%string, 12%Q, 1) in
    Some {| node_id := node;
            node_suspicious := is_suspicious;
            node_score := score;
            node_color := color;
            node_size := size;
            node_border_width := border_width;
            node_patterns := default [] (detected_patterns <$> sa);
            node_ring_id := sa ≫= account_ring_id |}
  else None.

(** The loop over [G.edges(data=True)]: skip an edge with an end that is
    not shown, stop at the cap. *)
Fixpoint viz_edge_loop (include_nodes suspicious_ids : gset string)
  (edges : list (string * string * (Q * nat))) (edge_count : Z)
  : list VizEdge :=
  match edges with
  | [] => []
  | (u, v, (amount, tx_count)) :: rest =>
      if negb (bool_decide (u ∈ include_nodes))
         || negb (bool_decide (v ∈ include_nodes))
      then viz_edge_loop include_nodes suspicious_ids rest edge_count
      else if (MAX_GRAPH_VIZ_EDGES <=? edge_count)%Z then []
      else
        let is_suspicious_edge :=
          bool_decide (u ∈ suspicious_ids) && bool_decide (v ∈ suspicious_ids) in
        {| edge_from := u;
           edge_to := v;
           edge_suspicious := is_suspicious_edge;
           edge_width := if is_suspicious_edge
                         then Qmax 1 (Qmin 5 (amount / 5000))
                         else 1%Q;
           edge_amount := amount;
           edge_tx_count := tx_count |}
        :: viz_edge_loop include_nodes suspicious_ids rest (edge_count + 1)
  end.

Definition _build_graph_viz_data (G : GraphView) (results : VizResults)
  : option VizData :=
  let suspicious_ids : gset string :=
    list_to_set (account_id <$> suspicious_accounts results) in
  include_nodes ← included G suspicious_ids;
  nodes ← mapM (viz_node G results suspicious_ids) (elements include_nodes);
  let edges := viz_edge_loop include_nodes suspicious_ids (view_edges G) 0 in
  let total_nodes := length (view_nodes G) in
  let total_edges := length (view_edges G) in
  Some {| viz_nodes := nodes;
          viz_edges := edges;
          truncated :=
            bool_decide (MAX_GRAPH_VIZ_NODES < Z.of_nat total_nodes)%Z
            || bool_decide (MAX_GRAPH_VIZ_EDGES < Z.of_nat total_edges)%Z;
          total_nodes := total_nodes;
          total_edges := total_edges |}.

End Viz.

(** A small graph and result for examples: A→B→C, A flagged. *)
Definition example_view : GraphView :=
  {| view_nodes := ["A"; "B"; "C"]%string;
     view_edges := [("A", "B", (12000%Q, 2)); ("B", "C", (300%Q, 1))]%string |}.

Definition example_results : VizResults :=
  {| suspicious_accounts :=
       [ {| account_id := "A"; suspicion_score := 82;
            detected_patterns := ["cycle"]%string;
            account_ring_id := Some "RING_001"%string |} ]%string;
     fraud_rings := [["A"; "B"]%string] |}.

End Main.

(** * Properties *)

(** ** Cleaning a measurement key *)

Section PyStrFacts.

Lemma length_zfill width s : width ≤ length (zfill width s).
Proof.
  unfold zfill. destruct (Nat.leb_spec width (length s)) as [Hle|Hlt]; [done|].
  destruct s as [|c r]; [by rewrite length_replicate|].
  destruct (is_sign c);
    rewrite ?length_cons, ?length_app, ?length_replicate, ?length_cons in *; lia.
Qed.

Lemma length_last_n n s : 0 < n → n ≤ length s → length (last_n n s) = n.
Proof.
  intros Hn Hle. unfold last_n.
  destruct (Nat.eqb_spec n 0) as [->|_]; [lia|].
  rewrite length_drop. lia.
Qed.

Lemma length_clean n bs : 0 < n → length (clean n bs) = n.
Proof. intros Hn. apply length_last_n; [done | apply length_zfill]. Qed.

Lemma Forall_last_n (P : ascii → Prop) n s :
  Forall P s → Forall P (last_n n s).
Proof.
  intros H. unfold last_n. destruct (n =? 0); [done|]. by apply Forall_drop.
Qed.

Lemma is_sign_bit c : is_bit c → is_sign c = false.
Proof. by intros [-> | ->]. Qed.

Lemma Forall_zfill_bits width s :
  Forall is_bit s → Forall is_bit (zfill width s).
Proof.
  intros H. unfold zfill. destruct (width <=? length s); [done|].
  assert (Hz : ∀ k, Forall is_bit (replicate k "0"%char)).
  { intros k. apply Forall_replicate. by left. }
  destruct H as [|c r Hc Hr]; [apply Hz|].
  rewrite (is_sign_bit c Hc). apply Forall_app. split; [apply Hz|].
  by constructor.
Qed.

(** A key made of bits and blanks cleans to a string of bits. *)
Lemma Forall_clean_bits n bs :
  Forall (λ c, is_bit c ∨ c = " "%char) bs → Forall is_bit (clean n bs).
Proof.
  intros H. unfold clean. apply Forall_last_n, Forall_zfill_bits.
  unfold replace_space. induction H as [|c r Hc Hr IH]; [constructor|].
  rewrite filter_cons. case_decide as Hsp; [|exact IH].
  constructor; [|exact IH]. by destruct Hc.
Qed.

Lemma bit_or_blank_spec c :
  bit_or_blank c = true → is_bit c ∨ c = " "%char.
Proof.
  unfold bit_or_blank, is_bit.
  intros [[H | H]%orb_true_iff | H]%orb_true_iff;
    apply bool_decide_eq_true in H; tauto.
Qed.

Lemma Forall_bit_or_blank (s : pystr) :
  forallb bit_or_blank s = true → Forall (λ c, is_bit c ∨ c = " "%char) s.
Proof.
  induction s as [|c s IH]; simpl; [constructor|].
  intros [Hc Hs]%andb_true_iff. constructor; [by apply bit_or_blank_spec|].
  by apply IH.
Qed.

End PyStrFacts.

(** ** The cost graph *)

Section CostGraphFacts.

Import MaxCut.

(** The index dictionary sends an account to a position it occupies. *)
Lemma build_idx_from (l : list string) (k : nat) (m : gmap string nat) u i :
  foldl (λ idx p, <[p.2 := p.1]> idx) m (zip (seq k (length l)) l) !! u = Some i →
  m !! u = Some i ∨ (k ≤ i ∧ l !! (i - k) = Some u).
Proof.
  revert k m. induction l as [|a l IH]; intros k m; simpl; [by left|].
  intros H. apply IH in H as [H | [Hk H]].
  - destruct (decide (a = u)) as [->|Hne].
    + rewrite lookup_insert_eq in H. injection H as <-.
      right. split; [done|]. by rewrite Nat.sub_diag.
    + rewrite lookup_insert_ne in H by done. by left.
  - right. split; [lia|].
    replace (i - k) with (S (i - S k)) by lia. done.
Qed.

Lemma build_idx_lookup members u i :
  build_idx members !! u = Some i → members !! i = Some u.
Proof.
  unfold build_idx, enumerate. intros H.
  apply build_idx_from in H as [H | [_ H]]; [by rewrite lookup_empty in H|].
  by rewrite Nat.sub_0_r in H.
Qed.

Lemma build_idx_inj members u v i :
  build_idx members !! u = Some i → build_idx members !! v = Some i → u = v.
Proof.
  intros Hu%build_idx_lookup Hv%build_idx_lookup. congruence.
Qed.

Lemma build_idx_lt members u i :
  build_idx members !! u = Some i → i < length members.
Proof. intros H%build_idx_lookup. by eapply lookup_lt_Some. Qed.

(** The first loop collects exactly the images of the edges of [G] whose
    two ends have an index. *)
Lemma member_edges_from (idx : gmap string nat) (G : digraph_edges)
  (acc : list edge) e :
  e ∈ foldl (λ edges uv,
               match idx !! uv.1, idx !! uv.2 with
               | Some i, Some j => edges ++ [(i, j)]
               | _, _ => edges
               end) acc G
  ↔ e ∈ acc ∨ ∃ u v, (u, v) ∈ G ∧ idx !! u = Some e.1 ∧ idx !! v = Some e.2.
Proof.
  revert acc. induction G as [|[u v] G IH]; intros acc; simpl.
  - split; [by left|]. intros [H | (? & ? & H & _)]; [done|].
    by apply elem_of_nil in H.
  - rewrite IH. clear IH. split.
    + intros [H | (u' & v' & H & Hu & Hv)].
      * destruct (idx !! u) as [i|] eqn:Hu; [|by left].
        destruct (idx !! v) as [j|] eqn:Hv; [|by left].
        apply elem_of_app in H as [H | H]; [by left|].
        apply list_elem_of_singleton in H as ->. right.
        exists u, v. split; [left|done].
      * right. exists u', v'. split; [by right|done].
    + intros [H | (u' & v' & H & Hu & Hv)].
      * left. destruct (idx !! u); [|done]. destruct (idx !! v); [|done].
        apply elem_of_app. by left.
      * apply elem_of_cons in H as [[= -> ->] | H].
        -- left. rewrite Hu, Hv. apply elem_of_app. right.
           destruct e. by apply list_elem_of_singleton.
        -- right. by exists u', v'.
Qed.

Lemma elem_of_member_edges (idx : gmap string nat) G e :
  e ∈ member_edges idx G
  ↔ ∃ u v, (u, v) ∈ G ∧ idx !! u = Some e.1 ∧ idx !! v = Some e.2.
Proof.
  unfold member_edges. rewrite member_edges_from. split; [|by right].
  intros [H | H]; [by apply elem_of_nil in H | done].
Qed.

(** The second loop keeps what it is given and adds only reversed edges. *)
Lemma add_reverse_from (snapshot acc : list edge) e :
  e ∈ foldl (λ acc uv,
               if decide ((uv.2, uv.1) ∈ acc) then acc
               else acc ++ [(uv.2, uv.1)]) acc snapshot
  ↔ e ∈ acc ∨ (e.2, e.1) ∈ snapshot.
Proof.
  revert acc. induction snapshot as [|[u v] l IH]; intros acc; simpl.
  - split; [by left|]. intros [H | H]; [done | by apply elem_of_nil in H].
  - rewrite IH. clear IH. destruct e as [a b]. simpl.
    case_decide as Hin; rewrite ?elem_of_app, ?list_elem_of_singleton,
      elem_of_cons.
    + split; [intros [H | H]; [by left | by right; right]|].
      intros [H | [[= -> ->] | H]]; [by left | by left | by right].
    + split.
      * intros [[H | [= -> ->]] | H];
          [by left | by right; left | by right; right].
      * intros [H | [[= -> ->] | H]];
          [by left; left | by left; right | by right].
Qed.

Lemma elem_of_add_reverse edges e :
  e ∈ add_reverse edges ↔ e ∈ edges ∨ (e.2, e.1) ∈ edges.
Proof. apply add_reverse_from. Qed.

(** The third loop: [seen] holds the keys of [unique], which are distinct,
    and every key met has an edge in [unique]. *)
Lemma deduplicate_from (edges : list edge) seen unique :
  NoDup (key <$> unique) →
  (∀ k, k ∈ seen ↔ k ∈ key <$> unique) →
  let st := foldl dedup_step (seen, unique) edges in
  NoDup (key <$> st.2)
  ∧ (∀ e, e ∈ st.2 → e ∈ unique ∨ e ∈ edges)
  ∧ (∀ e, e ∈ unique ∨ e ∈ edges → key e ∈ key <$> st.2).
Proof.
  revert seen unique.
  induction edges as [|e edges IH]; intros seen unique Hnd Hseen; simpl.
  - split; [done|]. split; [by left|].
    intros e [H | H]; [by apply list_elem_of_fmap_2 | by apply elem_of_nil in H].
  - destruct (decide (key e ∈ seen)) as [Hin | Hin].
    + replace (dedup_step (seen, unique) e) with (seen, unique)
        by (unfold dedup_step; simpl; by rewrite decide_True).
      destruct (IH seen unique Hnd Hseen) as (H1 & H2 & H3).
      split; [done|]. split.
      * intros e' H. apply H2 in H as [H | H]; [by left | by right; right].
      * intros e' [H | [-> | H]%elem_of_cons].
        -- apply H3. by left.
        -- apply Hseen in Hin. apply list_elem_of_fmap in Hin as (e0 & -> & He0).
           apply H3. by left.
        -- apply H3. by right.
    + replace (dedup_step (seen, unique) e)
        with ({[key e]} ∪ seen, unique ++ [e])
        by (unfold dedup_step; simpl; by rewrite decide_False).
      destruct (IH ({[key e]} ∪ seen) (unique ++ [e])) as (H1 & H2 & H3).
      * rewrite fmap_app. apply NoDup_app. split; [done|]. split.
        -- intros k Hk Hk'. apply list_elem_of_singleton in Hk'. subst k.
           by apply Hseen in Hk.
        -- apply NoDup_singleton.
      * intros k. rewrite fmap_app, elem_of_app, elem_of_union,
          elem_of_singleton, Hseen. simpl. rewrite list_elem_of_singleton.
        tauto.
      * split; [done|]. split.
        -- intros e' H. apply H2 in H as [H | H]; [|by right; right].
           apply elem_of_app in H as [H | H]; [by left|].
           apply list_elem_of_singleton in H. subst. right. left.
        -- intros e' [H | [-> | H]%elem_of_cons]; apply H3.
           ++ left. apply elem_of_app. by left.
           ++ left. apply elem_of_app. right. by apply list_elem_of_singleton.
           ++ by right.
Qed.

Lemma deduplicate_spec edges :
  NoDup (key <$> deduplicate edges)
  ∧ (∀ e, e ∈ deduplicate edges → e ∈ edges)
  ∧ (∀ e, e ∈ edges → key e ∈ key <$> deduplicate edges).
Proof.
  destruct (deduplicate_from edges ∅ []) as (H1 & H2 & H3).
  - constructor.
  - intros k. simpl. split; intros H; [by apply not_elem_of_empty in H|].
    by apply elem_of_nil in H.
  - split; [done|]. split.
    + intros e H. apply H2 in H as [H | H]; [by apply elem_of_nil in H | done].
    + intros e H. apply H3. by right.
Qed.

(** Only a self-loop has a self-loop's key. *)
Lemma key_loop (e : edge) i : key e = (i, i) → e = (i, i).
Proof. destruct e as [a b]. unfold key. simpl. intros [= H1 H2]. f_equal; lia. Qed.

End CostGraphFacts.

Section CostGraphClaims.

Import MaxCut.

(** The edges returned are edges of [G] between two members, in one of the
    two directions. *)
Lemma get_graph_edges_sound members G e :
  e ∈ _get_graph_edges members G →
  ∃ u v, ((u, v) ∈ G ∨ (v, u) ∈ G)
         ∧ build_idx members !! u = Some e.1
         ∧ build_idx members !! v = Some e.2.
Proof.
  unfold _get_graph_edges. intros H.
  destruct (deduplicate_spec
              (add_reverse (member_edges (build_idx members) G)))
    as (_ & Hsub & _).
  apply Hsub in H.
  apply elem_of_add_reverse in H as [H | H];
    apply elem_of_member_edges in H as (u & v & H & Hu & Hv).
  - exists u, v. by split; [left|].
  - exists v, u. by split; [right|].
Qed.

(** Every index of a returned edge is below the number of members. *)
Lemma get_graph_edges_in_range members G :
  in_range (length members) (_get_graph_edges members G).
Proof.
  apply Forall_forall. intros e He.
  apply get_graph_edges_sound in He as (u & v & _ & Hu & Hv).
  split; by eapply build_idx_lt.
Qed.

(** C7, as the code has it: the edge list returned by [_get_graph_edges] is
    deduplicated, no unordered pair of qubit indices appears more than once;
    an edge (i, i) appears exactly when [G] has a self-loop on the member
    of index i, so the list is self-loop-free when [G] has no self-loop on
    a ring member. *)
Theorem get_graph_edges_deduplicated (members : list string)
  (G : digraph_edges) :
  deduplicated (_get_graph_edges members G)
  ∧ (∀ i, (i, i) ∈ _get_graph_edges members G
          ↔ ∃ u, build_idx members !! u = Some i ∧ (u, u) ∈ G)
  ∧ ((∀ u, u ∈ members → (u, u) ∉ G) →
     self_loop_free (_get_graph_edges members G)).
Proof.
  assert (Hloop : ∀ i, (i, i) ∈ _get_graph_edges members G
                       ↔ ∃ u, build_idx members !! u = Some i ∧ (u, u) ∈ G).
  { intros i. split.
    - intros (u & v & HG & Hu & Hv)%get_graph_edges_sound. simpl in *.
      assert (u = v) as <- by by eapply build_idx_inj.
      exists u. split; [done|]. by destruct HG.
    - intros (u & Hu & HG). unfold _get_graph_edges.
      destruct (deduplicate_spec
                  (add_reverse (member_edges (build_idx members) G)))
        as (_ & _ & Hkeep).
      specialize (Hkeep (i, i)).
      assert (Hin : (i, i) ∈ add_reverse (member_edges (build_idx members) G)).
      { apply elem_of_add_reverse. left.
        apply elem_of_member_edges. by exists u, u. }
      apply Hkeep, list_elem_of_fmap in Hin as (e & He & Hin).
      replace (key (i, i)) with (i, i) in He
        by (unfold key; simpl; f_equal; lia).
      symmetry in He. apply key_loop in He. by subst e. }
  split; [apply deduplicate_spec|]. split; [exact Hloop|].
  intros Hfree i Hi. apply Hloop in Hi as (u & Hu & HG).
  apply (Hfree u); [|done].
  apply build_idx_lookup in Hu. by eapply list_elem_of_lookup_2.
Qed.

(** C7, as stated, fails: a self-loop A→A of [G] on a member is kept. *)
Lemma get_graph_edges_keeps_self_loop :
  ¬ self_loop_free
      (_get_graph_edges ["A"; "B"]%string [("A", "A"); ("A", "B")]%string).
Proof.
  intros H. apply (H 0). vm_compute. left.
Qed.

End CostGraphClaims.

(** ** The classical baseline *)

Section GreedyFacts.

Import MaxCut.

Lemma touches_all_zero n side i (e : edge) :
  e.1 < n → e.2 < n →
  touches (replicate n 0) side i e
  = Some (bool_decide (0 = side) && (bool_decide (e.1 = i) || bool_decide (e.2 = i))).
Proof.
  intros H1 H2. unfold touches.
  rewrite !lookup_replicate_2 by done. simpl.
  destruct (decide (e.1 = i)) as [E1|E1], (decide (e.2 = i)) as [E2|E2],
    (decide (0 = side)) as [Es|Es];
    repeat first [ rewrite bool_decide_eq_true_2 by done
                 | rewrite bool_decide_eq_false_2 by done ]; done.
Qed.

Lemma count_cuts_all_zero n side i edges :
  in_range n edges → is_Some (count_cuts (replicate n 0) side i edges).
Proof.
  induction 1 as [|e edges [H1 H2] _ [k IH]]; simpl; [by eexists|].
  rewrite touches_all_zero, IH by done. simpl. by eexists.
Qed.

(** No node is ever on side 1, so no neighbour is counted there. *)
Lemma count_cuts_side_1 n i edges :
  in_range n edges → count_cuts (replicate n 0) 1 i edges = Some 0.
Proof.
  induction 1 as [|e edges [H1 H2] _ IH]; simpl; [done|].
  rewrite touches_all_zero, IH by done. done.
Qed.

Lemma greedy_loop_all_zero n edges range :
  in_range n edges →
  greedy_loop edges range (replicate n 0) = Some (replicate n 0).
Proof.
  intros Hr. induction range as [|i range IH]; simpl; [done|].
  destruct (count_cuts_all_zero n 0 i edges Hr) as [k ->].
  rewrite count_cuts_side_1 by done. simpl.
  replace (k <? 0) with false by (symmetry; apply Nat.ltb_ge; lia).
  by rewrite insert_replicate.
Qed.

Lemma cut_loop_all_zero n edges cut :
  in_range n edges → cut_loop (replicate n "0"%char) edges cut = Some cut.
Proof.
  intros Hr. revert cut.
  induction Hr as [|[u v] edges [H1 H2] _ IH]; intros cut; simpl in *; [done|].
  rewrite !lookup_replicate_2 by done. simpl. apply IH.
Qed.

(** The baseline never leaves the all-zero partition it starts from: it
    moves a node to side 1 only when more of its neighbours are on side 1
    than on side 0.  Its cut value is 0 for every cost graph. *)
Lemma classical_greedy_maxcut_all_zero n edges :
  in_range n edges →
  _classical_greedy_maxcut n edges = Some (replicate n "0"%char, 0).
Proof.
  intros Hr. unfold _classical_greedy_maxcut.
  rewrite greedy_loop_all_zero by done. simpl.
  rewrite fmap_replicate. simpl. unfold _compute_maxcut_value.
  by rewrite cut_loop_all_zero.
Qed.

End GreedyFacts.

(** ** Processing the counts *)

Section ProcessCountsFacts.

Import MaxCut Agent.

(** What a returned dictionary was computed from. *)
Lemma process_counts_inv counts members ring_id risk_score edges
  backend_name hw nshots r :
  _process_counts counts members ring_id risk_score edges backend_name hw nshots
  = Some r →
  let n := length members in
  let sorted := sorted_counts counts in
  ∃ dominant_prob,
    best_loop n edges (take 20 sorted) None (-1)%Z
    = Some (best_bitstring r, best_cut_value r)
    ∧ select_group members (best_bitstring r) "0"%char (seq 0 n)
      = Some (group_0 r)
    ∧ select_group members (best_bitstring r) "1"%char (seq 0 n)
      = Some (group_1 r)
    ∧ _classical_greedy_maxcut n edges
      = Some (classical_bitstring r, classical_cut_value r)
    ∧ mass_loop n (total_shots counts) (best_bitstring r) (take 10 sorted) 0%Q
      = Some dominant_prob
    ∧ quantum_advantage_pct r
      = advantage (best_cut_value r) (classical_cut_value r) (length edges)
    ∧ quantum_scores r
      = assign_scores (minority_of (group_0 r) (group_1 r))
          (minority_score risk_score)
          (assign_scores (dominant_of (group_0 r) (group_1 r))
             (dominant_score risk_score dominant_prob) ∅)
    ∧ suspicious_set r = dominant_of (group_0 r) (group_1 r)
    ∧ max_possible_cut r = length edges
    ∧ n_qubits r = n.
Proof.
  unfold _process_counts. intros H.
  destruct (best_loop _ _ _ _ _) as [[best_bs best_cut]|] eqn:Hbest;
    [|done]. simpl in H.
  destruct (select_group _ _ "0"%char _) as [g0|] eqn:Hg0; [|done]. simpl in H.
  destruct (select_group _ _ "1"%char _) as [g1|] eqn:Hg1; [|done]. simpl in H.
  destruct (_classical_greedy_maxcut _ _) as [[cbs ccut]|] eqn:Hgr;
    [|done]. simpl in H.
  destruct (mass_loop _ _ _ _ _) as [p|] eqn:Hmass; [|done]. simpl in H.
  destruct (mapM _ _) as [probs|] eqn:Hprobs; [|done]. simpl in H.
  injection H as <-. simpl. exists p. repeat split; done.
Qed.

End ProcessCountsFacts.

Section Ring4.

Import MaxCut Agent.

Lemma ring4_cost_graph :
  _get_graph_edges ring4_members ring4_graph = ring4_edges.
Proof. by vm_compute. Qed.

(** C1, at the 4-cycle A→B→C→D→A of the specification: the cost graph has
    the 4 edges of the cycle, the classical baseline returns the partition
    0000 with cut value 0, not 4, and whenever the best sampled partition
    cuts 4 edges the advantage percentage is 100, not 0. *)
Theorem ring4_baseline_cut_zero (counts : counts_dict) (ring_id : string)
  (risk_score : Q) (backend_name hw : string) (nshots : nat)
  (r : PartitionResult) :
  _process_counts counts ring4_members ring_id risk_score
    (_get_graph_edges ring4_members ring4_graph) backend_name hw nshots
  = Some r →
  best_cut_value r = 4%Z →
  _classical_greedy_maxcut 4 ring4_edges = Some (of_string "0000", 0)
  ∧ classical_cut_value r = 0
  ∧ (quantum_advantage_pct r == 100)%Q.
Proof.
  intros H Hbest. rewrite ring4_cost_graph in H.
  apply process_counts_inv in H
    as (p & _ & _ & _ & Hgreedy & _ & Hadv & _).
  assert (Hg : _classical_greedy_maxcut 4 ring4_edges
               = Some (of_string "0000", 0)) by by vm_compute.
  simpl in Hgreedy. rewrite Hg in Hgreedy. injection Hgreedy as _ Hcut.
  split; [done|]. split; [done|].
  rewrite Hadv, Hbest, <- Hcut. by vm_compute.
Qed.

Lemma ring4_baseline_cut_zero_witness :
  ∃ r,
    _process_counts [(of_string "0101", 1024%Z)] ring4_members "RING_001" 80
      (_get_graph_edges ring4_members ring4_graph) "aer_simulator" "simulator"
      SHOTS_SIM = Some r
    ∧ best_cut_value r = 4%Z
    ∧ classical_cut_value r = 0
    ∧ (quantum_advantage_pct r == 100)%Q.
Proof.
  eexists. split; [by vm_compute|]. split; [by vm_compute|].
  eapply (ring4_baseline_cut_zero [(of_string "0101", 1024%Z)] "RING_001" 80
            "aer_simulator" "simulator" SHOTS_SIM); by vm_compute.
Defined.

End Ring4.

Section SortedCountsFacts.

Import Agent.

Lemma insert_desc_perm x l : insert_desc x l ≡ₚ x :: l.
Proof.
  induction l as [|y l IH]; simpl; [done|].
  destruct (y.2 <=? x.2)%Z; [done|]. rewrite IH. apply Permutation_swap.
Qed.

Lemma sorted_counts_perm counts : sorted_counts counts ≡ₚ counts.
Proof.
  induction counts as [|x l IH]; simpl; [done|].
  by rewrite insert_desc_perm, IH.
Qed.

Lemma insert_desc_sorted x l :
  StronglySorted descending l → StronglySorted descending (insert_desc x l).
Proof.
  induction 1 as [|y l Hs IH Hall]; simpl.
  - repeat constructor.
  - destruct (Z.leb_spec y.2 x.2) as [Hle | Hlt].
    + constructor; [by constructor|]. constructor; [done|].
      eapply Forall_impl; [exact Hall|]. unfold descending. simpl. lia.
    + constructor; [done|].
      rewrite insert_desc_perm. constructor; [|done].
      unfold descending. lia.
Qed.

Lemma sorted_counts_sorted counts :
  StronglySorted descending (sorted_counts counts).
Proof.
  induction counts as [|x l IH]; simpl; [constructor|].
  by apply insert_desc_sorted.
Qed.

(** A prefix of a descending list holds its most frequent entries. *)
Lemma take_sorted_counts_most_frequent k counts :
  most_frequent k counts (take k (sorted_counts counts)).
Proof.
  split.
  - rewrite length_take. by rewrite (Permutation_length (sorted_counts_perm counts)).
  - exists (drop k (sorted_counts counts)). split.
    + rewrite take_drop. apply sorted_counts_perm.
    + intros p q Hp Hq.
      pose proof (sorted_counts_sorted counts) as Hs.
      rewrite <- (take_drop k (sorted_counts counts)) in Hs.
      by apply (StronglySorted_app_1_elem_of _ _ _ p q Hs).
Qed.

Lemma sorted_counts_nonempty counts : counts ≠ [] → sorted_counts counts ≠ [].
Proof.
  intros Hne Hs. apply Hne. apply Permutation_nil_r.
  rewrite <- Hs. symmetry. apply sorted_counts_perm.
Qed.

Lemma total_shots_from (counts : counts_dict) (acc : Z) :
  positive_counts counts →
  (acc ≤ foldl (λ acc p, acc + p.2) acc counts)%Z
  ∧ (counts ≠ [] → acc < foldl (λ acc p, acc + p.2) acc counts)%Z.
Proof.
  intros H. revert acc. induction H as [|p l Hp _ IH]; intros acc; simpl.
  - split; [lia | done].
  - destruct (IH (acc + p.2)%Z) as [IH1 _]. split; [lia|]. intros _. lia.
Qed.

Lemma total_shots_pos counts :
  counts ≠ [] → positive_counts counts → (0 < total_shots counts)%Z.
Proof. intros Hne Hpos. by apply total_shots_from. Qed.

End SortedCountsFacts.

Section BestPartitionFacts.

Import MaxCut Agent.

Lemma in_range_mono n m edges : n ≤ m → in_range n edges → in_range m edges.
Proof.
  intros Hle Hr. eapply Forall_impl; [exact Hr|].
  intros e [H1 H2]. split; lia.
Qed.

Lemma cut_loop_returns (bs : pystr) edges cut :
  in_range (length bs) edges → is_Some (cut_loop bs edges cut).
Proof.
  intros Hr. revert cut.
  induction Hr as [|[u v] edges [H1 H2] _ IH]; intros cut; simpl in *;
    [by eexists|].
  destruct (lookup_lt_is_Some_2 bs u H1) as [bu ->].
  destruct (lookup_lt_is_Some_2 bs v H2) as [bv ->]. simpl. apply IH.
Qed.

(** The cut value of a cleaned key is defined for every in-range edge list. *)
Lemma compute_maxcut_value_clean n bs edges :
  in_range n edges → is_Some (_compute_maxcut_value (clean n bs) edges).
Proof.
  intros Hr. apply cut_loop_returns. destruct n as [|n].
  - eapply in_range_mono; [|exact Hr]. lia.
  - by rewrite length_clean by lia.
Qed.

Lemma best_loop_returns n edges top best_bs best_cut :
  in_range n edges → is_Some (best_loop n edges top best_bs best_cut).
Proof.
  intros Hr. revert best_bs best_cut.
  induction top as [|[bs cnt] top IH]; intros best_bs best_cut; simpl;
    [by eexists|].
  destruct (compute_maxcut_value_clean n bs edges Hr) as [cut ->]. simpl.
  destruct (best_cut <? Z.of_nat cut)%Z; apply IH.
Qed.

(** The loop returns the largest cut value met, never below the one it
    starts from, together with a cleaned key that reaches it. *)
Lemma best_loop_spec n edges top best_bs best_cut bs' cut' :
  best_loop n edges top best_bs best_cut = Some (bs', cut') →
  (best_cut ≤ cut')%Z
  ∧ (∀ p, p ∈ top →
          ∃ cut, _compute_maxcut_value (clean n p.1) edges = Some cut
                 ∧ (Z.of_nat cut ≤ cut')%Z)
  ∧ ((bs' = best_bs ∧ cut' = best_cut)
     ∨ ∃ p cut, p ∈ top ∧ bs' = Some (clean n p.1)
                ∧ _compute_maxcut_value (clean n p.1) edges = Some cut
                ∧ cut' = Z.of_nat cut).
Proof.
  revert best_bs best_cut.
  induction top as [|[bs cnt] top IH]; intros best_bs best_cut; simpl.
  - intros [= <- <-]. split; [lia|]. split; [|by left].
    intros p Hp. by apply elem_of_nil in Hp.
  - destruct (_compute_maxcut_value (clean n bs) edges) as [cut|] eqn:Hcut;
      [|done]. simpl.
    destruct (Z.ltb_spec best_cut (Z.of_nat cut)) as [Hlt | Hge]; intros H;
      apply IH in H as (Hle & Hall & Hbest).
    + split; [lia|]. split.
      * intros p [-> | Hp]%elem_of_cons; [|by apply Hall].
        exists cut. split; [done | lia].
      * right. destruct Hbest as [[-> ->] | (p & c & Hp & -> & Hc & ->)].
        -- exists (bs, cnt), cut. split; [left|done].
        -- exists p, c. split; [by right|done].
    + split; [lia|]. split.
      * intros p [-> | Hp]%elem_of_cons; [|by apply Hall].
        exists cut. split; [done | lia].
      * destruct Hbest as [[-> ->] | (p & c & Hp & -> & Hc & ->)];
          [by left|].
        right. exists p, c. split; [by right|done].
Qed.

(** From the initial [(None, -1)] and a non-empty list of samples the loop
    ends on the highest cut value and a key that reaches it. *)
Lemma best_loop_highest n edges top bs' cut' :
  top ≠ [] →
  best_loop n edges top None (-1)%Z = Some (bs', cut') →
  highest_cut n edges top cut'
  ∧ ∃ p, p ∈ top ∧ bs' = Some (clean n p.1).
Proof.
  intros Hne H. apply best_loop_spec in H as (_ & Hall & Hbest).
  destruct Hbest as [[-> ->] | (p & c & Hp & -> & Hc & ->)].
  - destruct top as [|p top]; [done|].
    destruct (Hall p) as (cut & _ & Hle); [left|]. lia.
  - split; [|by exists p]. split; [|done]. by exists p, c.
Qed.

End BestPartitionFacts.

Section GroupFacts.

Import Agent.

(** The comprehension picks, in order, the members at the positions whose
    character is [c]. *)
Lemma select_group_spec members (bs : pystr) c range g :
  select_group members (Some bs) c range = Some g →
  g = omap (λ i, members !! i) (filter (λ i, bs !! i = Some c) range).
Proof.
  revert g. induction range as [|i range IH]; intros g; simpl.
  - by intros [= <-].
  - rewrite filter_cons. destruct (bs !! i) as [b|] eqn:Hb; [|done]. simpl.
    destruct (decide (b = c)) as [-> | Hne].
    + rewrite decide_True by done.
      destruct (members !! i) as [m|] eqn:Hm; [|done]. simpl.
      destruct (select_group _ _ _ range) as [tl|]; [|done]. simpl.
      intros [= <-]. rewrite Hm. f_equal. by apply IH.
    + rewrite decide_False by congruence. apply IH.
Qed.

Lemma select_group_returns members (bs : pystr) c range :
  Forall (λ i, i < length bs ∧ i < length members) range →
  is_Some (select_group members (Some bs) c range).
Proof.
  induction 1 as [|i range [H1 H2] _ [tl IH]]; simpl; [by eexists|].
  destruct (lookup_lt_is_Some_2 bs i H1) as [b ->]. simpl.
  destruct (decide (b = c)); [|by eexists].
  destruct (lookup_lt_is_Some_2 members i H2) as [m ->]. simpl.
  rewrite IH. by eexists.
Qed.

Lemma omap_lookup_seq {A} (pre l : list A) :
  omap (λ i, (pre ++ l) !! i) (seq (length pre) (length l)) = l.
Proof.
  revert pre. induction l as [|x l IH]; intros pre; simpl; [done|].
  rewrite lookup_app_r, Nat.sub_diag by lia. simpl. f_equal.
  specialize (IH (pre ++ [x])).
  rewrite length_app, <- app_assoc in IH. simpl in IH.
  by rewrite Nat.add_1_r in IH.
Qed.

(** Positions carrying a bit split into those carrying 0 and those
    carrying 1. *)
Lemma filter_bits_split (bs : pystr) (range : list nat) :
  Forall (λ i, ∃ b, bs !! i = Some b ∧ is_bit b) range →
  filter (λ i, bs !! i = Some "0"%char) range
    ++ filter (λ i, bs !! i = Some "1"%char) range ≡ₚ range.
Proof.
  induction 1 as [|i range (b & Hb & Hbit) _ IH]; [done|].
  rewrite !filter_cons, Hb.
  destruct Hbit as [-> | ->].
  - rewrite decide_True, decide_False by done. simpl. by rewrite IH.
  - rewrite decide_False, decide_True by done.
    rewrite <- Permutation_middle. by rewrite IH.
Qed.

(** For a bitstring as long as the member list, the two groups are a
    rearrangement of the members: every position lands in exactly one. *)
Lemma select_groups_partition members (bs : pystr) g0 g1 :
  length bs = length members →
  Forall is_bit bs →
  select_group members (Some bs) "0"%char (seq 0 (length members)) = Some g0 →
  select_group members (Some bs) "1"%char (seq 0 (length members)) = Some g1 →
  g0 ++ g1 ≡ₚ members.
Proof.
  intros Hlen Hbits H0%select_group_spec H1%select_group_spec. subst g0 g1.
  rewrite <- omap_app, filter_bits_split.
  - apply (reflexive_eq _ _ (omap_lookup_seq [] members)).
  - apply Forall_forall. intros i Hi%elem_of_seq.
    destruct (lookup_lt_is_Some_2 bs i) as [b Hb]; [lia|].
    exists b. split; [done|].
    eapply Forall_forall; [exact Hbits|]. by eapply list_elem_of_lookup_2.
Qed.

End GroupFacts.

Section ProcessCountsReturns.

Import MaxCut Agent.

Lemma take_nonempty {A} k (l : list A) : 0 < k → l ≠ [] → take k l ≠ [].
Proof. destruct k, l; simpl; intros; (lia || done). Qed.

Lemma elem_of_take_sorted k counts p :
  p ∈ take k (sorted_counts counts) → p ∈ counts.
Proof.
  intros Hp. rewrite <- (sorted_counts_perm counts).
  by eapply subseteq_take.
Qed.

Lemma mass_loop_returns n total best_bs top acc :
  total ≠ 0%Z → is_Some (mass_loop n total best_bs top acc).
Proof.
  intros Ht. revert acc.
  induction top as [|[bs cnt] top IH]; intros acc; simpl; [by eexists|].
  case_decide; [|apply IH].
  unfold py_div. destruct (Z.eqb_spec total 0); [done|]. simpl. apply IH.
Qed.

(** With at least one sample the best bitstring is a cleaned key. *)
Lemma process_counts_best_bitstring counts members ring_id risk_score edges
  backend_name hw nshots r :
  counts ≠ [] →
  _process_counts counts members ring_id risk_score edges backend_name hw nshots
  = Some r →
  highest_cut (length members) edges (take 20 (sorted_counts counts))
    (best_cut_value r)
  ∧ ∃ p, p ∈ counts ∧ best_bitstring r = Some (clean (length members) p.1).
Proof.
  intros Hne H. apply process_counts_inv in H as (_ & Hbest & _).
  apply best_loop_highest in Hbest as (Hhigh & p & Hp & Hbs).
  - split; [done|]. exists p. split; [|done]. by eapply elem_of_take_sorted.
  - apply take_nonempty; [lia|]. by apply sorted_counts_nonempty.
Qed.

(** [_process_counts] raises nothing on a non-empty histogram of positive
    counts and a cost graph over the members. *)
Lemma process_counts_returns counts members ring_id risk_score edges
  backend_name hw nshots :
  in_range (length members) edges →
  counts ≠ [] →
  positive_counts counts →
  is_Some (_process_counts counts members ring_id risk_score edges
             backend_name hw nshots).
Proof.
  intros Hr Hne Hpos. unfold _process_counts.
  pose proof (total_shots_pos counts Hne Hpos) as Htot.
  destruct (best_loop_returns (length members) edges
              (take 20 (sorted_counts counts)) None (-1)%Z Hr)
    as [[best_bs best_cut] Hbest].
  rewrite Hbest. simpl.
  apply best_loop_highest in Hbest as (_ & p & _ & ->);
    [|apply take_nonempty; [lia | by apply sorted_counts_nonempty]].
  assert (Hsel : ∀ c, is_Some (select_group members
                                 (Some (clean (length members) p.1)) c
                                 (seq 0 (length members)))).
  { intros c. apply select_group_returns, Forall_forall.
    intros i Hi%elem_of_seq. rewrite length_clean by lia. lia. }
  destruct (Hsel "0"%char) as [g0 ->], (Hsel "1"%char) as [g1 ->]. simpl.
  rewrite classical_greedy_maxcut_all_zero by done. simpl.
  destruct (mass_loop_returns (length members) (total_shots counts)
              (Some (clean (length members) p.1))
              (take 10 (sorted_counts counts)) 0%Q) as [mass ->]; [lia|].
  simpl.
  destruct (mapM (λ q : pystr * Z, py_div q.2 (total_shots counts))
              (sorted_counts counts)) as [probs|] eqn:Hprobs;
    [by eexists|].
  exfalso. apply eq_None_not_Some in Hprobs. apply Hprobs.
  apply mapM_is_Some, Forall_forall. intros q _. unfold py_div.
  destruct (Z.eqb_spec (total_shots counts) 0); [lia | by eexists].
Qed.

End ProcessCountsReturns.

Section PartitionClaims.

Import MaxCut Agent.

(** On the histogram of a run (non-empty, positive counts, keys made of
    bits) over a ring of distinct accounts, [_process_counts] returns a
    result whose [group_0] and [group_1] are disjoint and together hold
    exactly the members it was given, the capped subset the colouring was
    computed over: the two groups are a rearrangement of the member list. *)
Theorem partition_groups_disjoint_cover (counts : counts_dict)
  (members : list string) (ring_id : string) (risk_score : Q)
  (G : digraph_edges) (backend_name hw : string) (nshots : nat) :
  counts ≠ [] →
  positive_counts counts →
  bit_keys counts →
  NoDup members →
  ∃ r,
    _process_counts counts members ring_id risk_score
      (_get_graph_edges members G) backend_name hw nshots = Some r
    ∧ n_qubits r = length members
    ∧ group_0 r ++ group_1 r ≡ₚ members
    ∧ (∀ a, a ∈ group_0 r → a ∉ group_1 r)
    ∧ (∀ a, a ∈ members ↔ a ∈ group_0 r ∨ a ∈ group_1 r).
Proof.
  intros Hne Hpos Hkeys Hnd.
  destruct (process_counts_returns counts members ring_id risk_score
              (_get_graph_edges members G) backend_name hw nshots)
    as [r Hr]; [apply get_graph_edges_in_range | done | done |].
  exists r. split; [done|].
  destruct (process_counts_best_bitstring _ _ _ _ _ _ _ _ _ Hne Hr)
    as (_ & p & Hp & Hbs).
  apply process_counts_inv in Hr
    as (_ & _ & Hg0 & Hg1 & _ & _ & _ & _ & _ & _ & Hn).
  split; [done|].
  assert (Hperm : group_0 r ++ group_1 r ≡ₚ members).
  { rewrite Hbs in Hg0, Hg1. destruct members as [|m members'] eqn:Hm.
    - simpl in Hg0, Hg1. by injection Hg0 as <-; injection Hg1 as <-.
    - rewrite <- Hm in *.
      eapply select_groups_partition; [| |exact Hg0|exact Hg1].
      + apply length_clean. rewrite Hm. simpl. lia.
      + apply Forall_clean_bits.
        eapply (proj1 (Forall_forall _ _) Hkeys p Hp). }
  split; [done|]. split.
  - intros a H0 H1. rewrite <- Hperm in Hnd.
    apply NoDup_app in Hnd as (_ & Hdisj & _). by apply (Hdisj a).
  - intros a. by rewrite <- Hperm, elem_of_app.
Qed.

Lemma partition_groups_disjoint_cover_witness :
  ∃ r,
    _process_counts
      [(of_string "0101", 600%Z); (of_string "1 010", 300%Z);
       (of_string "0000", 124%Z)]
      ring4_members "RING_001" 80
      (_get_graph_edges ring4_members ring4_graph)
      "aer_simulator" "simulator" SHOTS_SIM = Some r
    ∧ group_0 r = ["A"; "C"]%string
    ∧ group_1 r = ["B"; "D"]%string
    ∧ (∀ a, a ∈ group_0 r → a ∉ group_1 r)
    ∧ (∀ a, a ∈ ring4_members ↔ a ∈ group_0 r ∨ a ∈ group_1 r).
Proof.
  destruct (partition_groups_disjoint_cover
              [(of_string "0101", 600%Z); (of_string "1 010", 300%Z);
               (of_string "0000", 124%Z)]
              ring4_members "RING_001" 80 ring4_graph
              "aer_simulator" "simulator" SHOTS_SIM)
    as (r & Hr & _ & _ & Hdisj & Hcover).
  - done.
  - repeat constructor.
  - apply Forall_forall. intros p Hp. apply Forall_bit_or_blank.
    repeat (apply elem_of_cons in Hp as [-> | Hp]; [by vm_compute|]).
    by apply elem_of_nil in Hp.
  - apply (bool_decide_unpack _). by vm_compute.
  - exists r. split; [done|].
    assert (Hr' := Hr). vm_compute in Hr'. injection Hr' as <-.
    split; [done|]. split; [done|]. split; [exact Hdisj | exact Hcover].
Defined.

End PartitionClaims.

(** ** Rounding and the scores *)

Section NumericFacts.

Local Open Scope Q_scope.

Lemma round_half_even_mono (x y : Q) :
  x <= y → (round_half_even x <= round_half_even y)%Z.
Proof.
  intros Hxy. unfold round_half_even.
  pose proof (Qfloor_resp_le x y Hxy) as Hf.
  pose proof (Qfloor_le x) as Hx1. pose proof (Qlt_floor x) as Hx2.
  pose proof (Qfloor_le y) as Hy1. pose proof (Qlt_floor y) as Hy2.
  destruct (Z.eq_dec (Qfloor x) (Qfloor y)) as [Heq | Hne].
  - rewrite <- Heq in *.
    destruct (Qcompare (x - inject_Z (Qfloor x)) (1 # 2)) eqn:Ex;
      destruct (Qcompare (y - inject_Z (Qfloor x)) (1 # 2)) eqn:Ey;
      first [apply Qeq_alt in Ex | apply Qlt_alt in Ex | apply Qgt_alt in Ex];
      first [apply Qeq_alt in Ey | apply Qlt_alt in Ey | apply Qgt_alt in Ey];
      try (exfalso; lra); destruct (Z.even (Qfloor x)); lia.
  - destruct (Qcompare (x - inject_Z (Qfloor x)) (1 # 2));
      destruct (Qcompare (y - inject_Z (Qfloor y)) (1 # 2));
      destruct (Z.even (Qfloor x)); destruct (Z.even (Qfloor y)); lia.
Qed.

(** Rounding to two decimals is monotone. *)
Lemma round2_mono (x y : Q) : x <= y → round2 x <= round2 y.
Proof.
  intros Hxy. unfold round2, Qdiv. apply Qmult_le_compat_r; [|done].
  rewrite <- Zle_Qle. apply round_half_even_mono. lra.
Qed.

Lemma Qmin_mono_l (x y z : Q) : x <= y → Qmin x z <= Qmin y z.
Proof.
  intros Hxy.
  destruct (Q.min_spec x z) as [[H1 ->] | [H1 ->]],
           (Q.min_spec y z) as [[H2 ->] | [H2 ->]]; lra.
Qed.

Import Agent.

(** The inequality behind the ordering of the two scores. *)
Lemma minority_le_dominant (risk_score dominant_prob : Q) :
  0 <= risk_score → 0 <= dominant_prob →
  minority_score risk_score <= dominant_score risk_score dominant_prob.
Proof.
  intros Hr Hp. unfold minority_score, dominant_score.
  apply round2_mono, Qmin_mono_l. lra.
Qed.

Lemma py_div_nonneg (a b : Z) q :
  (0 <= a)%Z → (0 < b)%Z → py_div a b = Some q → 0 <= q.
Proof.
  intros Ha Hb. unfold py_div. destruct (Z.eqb_spec b 0); [lia|].
  intros [= <-]. unfold Qdiv. apply Qmult_le_0_compat.
  - change (inject_Z 0 <= inject_Z a). by rewrite <- Zle_Qle.
  - apply Qinv_le_0_compat. change (inject_Z 0 <= inject_Z b).
    rewrite <- Zle_Qle. lia.
Qed.

(** The probability mass of the best partition is not negative. *)
Lemma mass_loop_nonneg n total best_bs top acc mass :
  (0 < total)%Z → positive_counts top → 0 <= acc →
  mass_loop n total best_bs top acc = Some mass → 0 <= mass.
Proof.
  intros Ht Hpos. revert acc.
  induction Hpos as [|[bs cnt] top Hp _ IH]; intros acc Hacc; simpl.
  - by intros [= <-].
  - case_decide; [|by apply IH].
    destruct (py_div cnt total) as [q|] eqn:Hq; [|done]. simpl.
    apply IH. apply py_div_nonneg in Hq; [lra | simpl in Hp; lia | done].
Qed.

(** The scores after one assignment loop. *)
Lemma assign_scores_lookup group score (scores : gmap string Q) a :
  assign_scores group score scores !! a
  = if decide (a ∈ group) then Some score else scores !! a.
Proof.
  unfold assign_scores. revert scores.
  induction group as [|b group IH]; intros scores.
  - destruct (decide (a ∈ [])) as [H|_]; [by apply elem_of_nil in H | done].
  - cbn [foldl]. rewrite IH.
    destruct (decide (a ∈ group)) as [Hin | Hnin],
             (decide (a ∈ b :: group)) as [Hin' | Hnin'].
    + done.
    + exfalso. apply Hnin'. by right.
    + apply elem_of_cons in Hin' as [-> | Hin']; [|done].
      apply lookup_insert_eq.
    + apply lookup_insert_ne. intros ->. apply Hnin'. left.
Qed.

End NumericFacts.

Section ScoreClaims.

Import MaxCut Agent.

Local Open Scope Q_scope.

(** For a ring with [risk_score >= 0] and any histogram of a run,
    [_process_counts] returns a result in which every account of the
    dominant group has a partition score, every account of the minority
    group has one, and the former is never below the latter. *)
Theorem dominant_score_ge_minority (counts : counts_dict)
  (members : list string) (ring_id : string) (risk_score : Q)
  (G : digraph_edges) (backend_name hw : string) (nshots : nat) :
  0 <= risk_score →
  counts ≠ [] →
  positive_counts counts →
  ∃ r,
    _process_counts counts members ring_id risk_score
      (_get_graph_edges members G) backend_name hw nshots = Some r
    ∧ suspicious_set r = dominant_of (group_0 r) (group_1 r)
    ∧ ∀ a b,
        a ∈ dominant_of (group_0 r) (group_1 r) →
        b ∈ minority_of (group_0 r) (group_1 r) →
        ∃ score_a score_b,
          quantum_scores r !! a = Some score_a
          ∧ quantum_scores r !! b = Some score_b
          ∧ score_b <= score_a.
Proof.
  intros Hrisk Hne Hpos.
  destruct (process_counts_returns counts members ring_id risk_score
              (_get_graph_edges members G) backend_name hw nshots)
    as [r Hr]; [apply get_graph_edges_in_range | done | done |].
  exists r. split; [done|].
  apply process_counts_inv in Hr
    as (mass & _ & _ & _ & _ & Hmass & _ & Hscores & Hsus & _).
  split; [done|]. intros a b Ha Hb.
  assert (Hm : 0 <= mass).
  { eapply mass_loop_nonneg; [| | |exact Hmass].
    - by apply total_shots_pos.
    - apply Forall_forall. intros p Hp%elem_of_take_sorted.
      by eapply (proj1 (Forall_forall _ _) Hpos).
    - lra. }
  pose proof (minority_le_dominant risk_score mass Hrisk Hm) as Hle.
  rewrite Hscores, !assign_scores_lookup.
  rewrite (decide_True (P := b ∈ _)) by done.
  destruct (decide (a ∈ minority_of (group_0 r) (group_1 r))).
  - eexists _, _. split; [done|]. split; [done|]. lra.
  - rewrite (decide_True (P := a ∈ _)) by done.
    eexists _, _. split; [done|]. split; [done|]. exact Hle.
Qed.

Lemma dominant_score_ge_minority_witness :
  ∃ r,
    _process_counts
      [(of_string "0101", 600%Z); (of_string "1010", 300%Z);
       (of_string "0000", 124%Z)]
      ring4_members "RING_001" 80
      (_get_graph_edges ring4_members ring4_graph)
      "aer_simulator" "simulator" SHOTS_SIM = Some r
    ∧ suspicious_set r = ["B"; "D"]%string
    ∧ ∃ score_b score_a,
        quantum_scores r !! "B"%string = Some score_b
        ∧ quantum_scores r !! "A"%string = Some score_a
        ∧ score_a <= score_b.
Proof.
  destruct (dominant_score_ge_minority
              [(of_string "0101", 600%Z); (of_string "1010", 300%Z);
               (of_string "0000", 124%Z)]
              ring4_members "RING_001" 80 ring4_graph
              "aer_simulator" "simulator" SHOTS_SIM)
    as (r & Hr & _ & Hord).
  - by vm_compute.
  - done.
  - repeat constructor.
  - exists r. split; [done|].
    assert (Hr' := Hr). vm_compute in Hr'. injection Hr' as Hr'.
    assert (Hg0 : group_0 r = ["A"; "C"]%string) by by rewrite <- Hr'.
    assert (Hg1 : group_1 r = ["B"; "D"]%string) by by rewrite <- Hr'.
    split; [by rewrite <- Hr'|].
    apply Hord; rewrite Hg0, Hg1; vm_compute.
    + apply list_elem_of_here.
    + apply list_elem_of_here.
Defined.

(** On the histogram of a run and a cost graph over the members,
    [_process_counts] returns
    [round((best_cut - classical_cut) / max(total_edges, 1) * 100, 2)] as
    [quantum_advantage_pct], where [best_cut] is the highest cut value among
    the 20 most frequent samples, [classical_cut] the cut value of the
    greedy baseline and [total_edges] the number of cost-graph edges. *)
Theorem advantage_pct_formula (counts : counts_dict)
  (members : list string) (ring_id : string) (risk_score : Q)
  (edges : list edge) (backend_name hw : string) (nshots : nat) :
  in_range (length members) edges →
  counts ≠ [] →
  positive_counts counts →
  ∃ r top20 best_cut classical_bs classical_cut,
    _process_counts counts members ring_id risk_score edges
      backend_name hw nshots = Some r
    ∧ most_frequent 20 counts top20
    ∧ highest_cut (length members) edges top20 best_cut
    ∧ _classical_greedy_maxcut (length members) edges
      = Some (classical_bs, classical_cut)
    ∧ best_cut_value r = best_cut
    ∧ classical_cut_value r = classical_cut
    ∧ quantum_advantage_pct r
      = round2 (inject_Z (best_cut - Z.of_nat classical_cut)
                / inject_Z (Z.max (Z.of_nat (length edges)) 1) * 100).
Proof.
  intros Hrange Hne Hpos.
  destruct (process_counts_returns counts members ring_id risk_score
              edges backend_name hw nshots Hrange Hne Hpos) as [r Hr].
  exists r, (take 20 (sorted_counts counts)), (best_cut_value r),
    (classical_bitstring r), (classical_cut_value r).
  split; [done|].
  split; [apply take_sorted_counts_most_frequent|].
  destruct (process_counts_best_bitstring _ _ _ _ _ _ _ _ _ Hne Hr)
    as (Hhigh & _).
  apply process_counts_inv in Hr as (_ & _ & _ & _ & Hgreedy & _ & Hadv & _).
  split; [exact Hhigh|]. split; [exact Hgreedy|].
  split; [reflexivity|]. split; [reflexivity|]. exact Hadv.
Qed.

Lemma advantage_pct_formula_witness :
  ∃ r,
    _process_counts
      [(of_string "0101", 600%Z); (of_string "1010", 300%Z);
       (of_string "0000", 124%Z)]
      ring4_members "RING_001" 80 ring4_edges
      "aer_simulator" "simulator" SHOTS_SIM = Some r
    ∧ best_cut_value r = 4%Z
    ∧ classical_cut_value r = 0%nat
    ∧ quantum_advantage_pct r
      = round2 (inject_Z (4 - 0) / inject_Z (Z.max 4 1) * 100).
Proof.
  destruct (advantage_pct_formula
              [(of_string "0101", 600%Z); (of_string "1010", 300%Z);
               (of_string "0000", 124%Z)]
              ring4_members "RING_001" 80 ring4_edges
              "aer_simulator" "simulator" SHOTS_SIM)
    as (r & top & bc & cbs & cc & Hr & _ & _ & _ & Hbc & Hcc & Hadv).
  - repeat constructor.
  - done.
  - repeat constructor.
  - exists r. split; [done|].
    assert (Hr' := Hr). vm_compute in Hr'. injection Hr' as Hr'.
    assert (Hb : best_cut_value r = 4%Z) by by rewrite <- Hr'.
    assert (Hc : classical_cut_value r = 0%nat) by by rewrite <- Hr'.
    split; [done|]. split; [done|].
    rewrite Hadv, <- Hbc, <- Hcc, Hb, Hc. reflexivity.
Defined.

End ScoreClaims.

(** ** More on the cost graph and the cut value *)

Section CostGraphCoverage.

Import MaxCut.

(** Every member has an index. *)
Lemma build_idx_total_from (l : list string) (k : nat) (m : gmap string nat) u :
  u ∈ l ∨ is_Some (m !! u) →
  is_Some (foldl (λ idx p, <[p.2 := p.1]> idx) m (zip (seq k (length l)) l) !! u).
Proof.
  revert k m. induction l as [|a l IH]; intros k m; simpl.
  - intros [H | H]; [by apply elem_of_nil in H | done].
  - intros H. apply IH. destruct (decide (a = u)) as [-> | Hne].
    + right. rewrite lookup_insert_eq. by eexists.
    + rewrite lookup_insert_ne by done.
      destruct H as [[-> | H]%elem_of_cons | H]; [done | by left | by right].
Qed.

Lemma build_idx_total members u :
  u ∈ members → is_Some (build_idx members !! u).
Proof. intros H. apply build_idx_total_from. by left. Qed.

(** Returned edges join positions of linked members; linked members have a
    returned edge. *)
Lemma get_graph_edges_links (members : list string) (G : digraph_edges) :
  (∀ e, e ∈ _get_graph_edges members G →
        e.1 < length members ∧ e.2 < length members
        ∧ ∃ u v, members !! e.1 = Some u ∧ members !! e.2 = Some v
                 ∧ ((u, v) ∈ G ∨ (v, u) ∈ G))
  ∧ (∀ u v, (u, v) ∈ G → u ∈ members → v ∈ members →
            ∃ i j e, build_idx members !! u = Some i
                     ∧ build_idx members !! v = Some j
                     ∧ e ∈ _get_graph_edges members G
                     ∧ key e = key (i, j)).
Proof.
  split.
  - intros e (u & v & HG & Hu & Hv)%get_graph_edges_sound.
    split; [by eapply build_idx_lt|]. split; [by eapply build_idx_lt|].
    exists u, v. split; [by apply build_idx_lookup|].
    split; [by apply build_idx_lookup | done].
  - intros u v HG [i Hi]%build_idx_total [j Hj]%build_idx_total.
    exists i, j.
    destruct (deduplicate_spec
                (add_reverse (member_edges (build_idx members) G)))
      as (_ & _ & Hkeep).
    assert (Hin : (i, j) ∈ add_reverse (member_edges (build_idx members) G)).
    { apply elem_of_add_reverse. left. apply elem_of_member_edges.
      by exists u, v. }
    apply Hkeep, list_elem_of_fmap in Hin as (e & He & Hin).
    exists e. by repeat split.
Qed.

Lemma get_graph_edges_nil_iff (members : list string) (G : digraph_edges) :
  _get_graph_edges members G = []
  ↔ ∀ u v, (u, v) ∈ G → ¬ (u ∈ members ∧ v ∈ members).
Proof.
  split.
  - intros Hnil u v HG [Hu Hv].
    destruct (get_graph_edges_links members G) as [_ Hcov].
    destruct (Hcov u v HG Hu Hv) as (i & j & e & _ & _ & He & _).
    rewrite Hnil in He. by apply elem_of_nil in He.
  - intros Hno. destruct (_get_graph_edges members G) as [|e l] eqn:Hout;
      [done|]. exfalso.
    assert (He : e ∈ _get_graph_edges members G) by (rewrite Hout; left).
    apply get_graph_edges_sound in He as (u & v & HG & Hu & Hv).
    apply build_idx_lookup, list_elem_of_lookup_2 in Hu, Hv.
    destruct HG as [HG | HG]; eapply Hno; eauto.
Qed.

(** A shorter member list has no more cost-graph edges: when the first [m]
    members have none, neither have the first [k <= m]. *)
Lemma get_graph_edges_take_empty (members : list string) G k m :
  k ≤ m →
  _get_graph_edges (take m members) G = [] →
  _get_graph_edges (take k members) G = [].
Proof.
  intros Hkm Hm. apply get_graph_edges_nil_iff.
  intros u v HG [Hu Hv].
  apply (proj1 (get_graph_edges_nil_iff _ _) Hm u v HG).
  assert (Hsub : take k members ⊆ take m members).
  { replace k with (k `min` m) by lia. rewrite <- take_take.
    apply subseteq_take. }
  split; by apply Hsub.
Qed.

(** The cost graph covers exactly the edges of [G] between two members:
    every returned edge joins the positions of two members that [G] links
    in one direction or the other, so every index is a position of the
    member list; every such link of [G] is the unordered pair of a returned
    edge; and the list is empty exactly when [G] has no edge between two
    members, self-loops included. *)
Theorem cost_graph_covers_member_links (members : list string)
  (G : digraph_edges) :
  (∀ e, e ∈ _get_graph_edges members G →
        e.1 < length members ∧ e.2 < length members
        ∧ ∃ u v, members !! e.1 = Some u ∧ members !! e.2 = Some v
                 ∧ ((u, v) ∈ G ∨ (v, u) ∈ G))
  ∧ (∀ u v, (u, v) ∈ G → u ∈ members → v ∈ members →
            ∃ i j e, build_idx members !! u = Some i
                     ∧ build_idx members !! v = Some j
                     ∧ e ∈ _get_graph_edges members G
                     ∧ key e = key (i, j))
  ∧ (_get_graph_edges members G = []
     ↔ ∀ u v, (u, v) ∈ G → ¬ (u ∈ members ∧ v ∈ members)).
Proof.
  destruct (get_graph_edges_links members G) as [Hsound Hcomplete].
  split; [exact Hsound|]. split; [exact Hcomplete|].
  apply get_graph_edges_nil_iff.
Qed.

End CostGraphCoverage.

Section CutValueFacts.

Import MaxCut.

(** A defined cut value needed no subscript out of range and counts at
    most one per edge. *)
Lemma cut_loop_inv (bs : pystr) edges cut result :
  cut_loop bs edges cut = Some result →
  in_range (length bs) edges ∧ cut ≤ result ≤ cut + length edges.
Proof.
  revert cut. induction edges as [|[u v] edges IH]; intros cut; simpl.
  - intros [= <-]. split; [constructor | lia].
  - destruct (bs !! u) as [bu|] eqn:Hu; [|done].
    destruct (bs !! v) as [bv|] eqn:Hv; [|done]. simpl.
    intros [Hr Hb]%IH. split.
    + constructor; [|done]. split; by eapply lookup_lt_Some.
    + destruct (bool_decide (bu ≠ bv)); lia.
Qed.

(** [_compute_maxcut_value] raises exactly when an edge names a position
    past the end of the bitstring; otherwise the cut value it returns is at
    most the number of edges. *)
Theorem compute_maxcut_value_defined (bs : pystr) (edges : list edge) :
  (is_Some (_compute_maxcut_value bs edges) ↔ in_range (length bs) edges)
  ∧ (∀ cut, _compute_maxcut_value bs edges = Some cut → cut ≤ length edges).
Proof.
  unfold _compute_maxcut_value. split.
  - split; [|apply cut_loop_returns].
    intros [cut Hcut]. by apply cut_loop_inv in Hcut as [? _].
  - intros cut Hcut. apply cut_loop_inv in Hcut as [_ ?]. lia.
Qed.

Lemma flip_bit_inj c d : flip_bit c = flip_bit d → c = d.
Proof.
  unfold flip_bit. repeat case_decide; congruence.
Qed.

Lemma cut_loop_complement (bs : pystr) edges cut :
  cut_loop (complement bs) edges cut = cut_loop bs edges cut.
Proof.
  revert cut. induction edges as [|[u v] edges IH]; intros cut; simpl; [done|].
  unfold complement. rewrite !list_lookup_fmap.
  destruct (bs !! u) as [bu|]; [|done].
  destruct (bs !! v) as [bv|]; [|done]. simpl.
  fold (complement bs). rewrite IH. f_equal.
  destruct (decide (bu = bv)) as [-> | Hne].
  - by rewrite !bool_decide_eq_false_2 by (by intros ?).
  - rewrite !bool_decide_eq_true_2; [done | done |].
    intros H%flip_bit_inj. done.
Qed.

(** Swapping the two colours of a partition leaves its cut value
    unchanged: a bitstring and its complement cut the same edges. *)
Theorem compute_maxcut_value_complement (bs : pystr) (edges : list edge) :
  _compute_maxcut_value (complement bs) edges
  = _compute_maxcut_value bs edges
  ∧ length (complement bs) = length bs
  ∧ complement (complement bs) = bs.
Proof.
  split; [apply cut_loop_complement|]. unfold complement.
  split; [apply length_fmap|].
  rewrite <- list_fmap_compose. rewrite <- (list_fmap_id bs) at 2.
  apply list_fmap_ext. intros _ c _. simpl.
  unfold flip_bit. repeat case_decide; congruence.
Qed.

End CutValueFacts.

Section GreedyBaseline.

Import MaxCut.

Lemma greedy_loop_length edges range partition result :
  greedy_loop edges range partition = Some result →
  length result = length partition.
Proof.
  revert partition. induction range as [|i range IH]; intros partition; simpl.
  - by intros [= <-].
  - destruct (count_cuts partition 0 i edges) as [c0|]; [|done].
    destruct (count_cuts partition 1 i edges) as [c1|]; [|done]. simpl.
    intros H%IH. by rewrite length_insert in H.
Qed.

(** A baseline that returned was given edges over its [n] nodes. *)
Lemma classical_greedy_maxcut_in_range n edges result :
  _classical_greedy_maxcut n edges = Some result → in_range n edges.
Proof.
  unfold _classical_greedy_maxcut.
  destruct (greedy_loop edges (seq 0 n) (replicate n 0)) as [partition|] eqn:Hg;
    [|done]. simpl.
  apply greedy_loop_length in Hg. rewrite length_replicate in Hg.
  destruct (_compute_maxcut_value (str_bit <$> partition) edges)
    as [cut|] eqn:Hcut; [|done].
  intros _. unfold _compute_maxcut_value in Hcut.
  apply cut_loop_inv in Hcut as [Hr _].
  by rewrite length_fmap, Hg in Hr.
Qed.

(** The classical baseline on every input: for an edge list over the [n]
    nodes it returns the all-zero partition and the cut value 0, whatever
    the graph (a node moves to side 1 only when more of its neighbours are
    already there, and none ever is); for an edge list naming a position
    that is not a node it raises. *)
Theorem classical_greedy_maxcut_result (n : nat) (edges : list edge) :
  (in_range n edges →
   _classical_greedy_maxcut n edges = Some (replicate n "0"%char, 0))
  ∧ (¬ in_range n edges → _classical_greedy_maxcut n edges = None).
Proof.
  split; [apply classical_greedy_maxcut_all_zero|].
  intros Hout.
  destruct (_classical_greedy_maxcut n edges) as [result|] eqn:Hg; [|done].
  exfalso. apply Hout. by eapply classical_greedy_maxcut_in_range.
Qed.

Lemma classical_greedy_maxcut_result_witness :
  _classical_greedy_maxcut 3 [(0, 1); (1, 2); (0, 2)]
  = Some (of_string "000", 0)
  ∧ _classical_greedy_maxcut 2 [(0, 1); (1, 2)] = None.
Proof.
  destruct (classical_greedy_maxcut_result 3 [(0, 1); (1, 2); (0, 2)])
    as [Hin _].
  destruct (classical_greedy_maxcut_result 2 [(0, 1); (1, 2)]) as [_ Hout].
  split.
  - apply Hin. repeat constructor.
  - apply Hout. intros H. apply Forall_cons in H as [_ H].
    apply Forall_cons in H as [[_ H] _]. simpl in H. lia.
Defined.

End GreedyBaseline.

Section ProcessCountsBounds.

Import MaxCut Agent.

Local Open Scope Q_scope.

(** Rounding to two decimals keeps a value between 0 and 100 there. *)
Lemma round2_bounds (x : Q) : 0 <= x → x <= 100 → 0 <= round2 x ∧ round2 x <= 100.
Proof.
  intros H0 H100.
  assert (R0 : round2 0 == 0) by by vm_compute.
  assert (R100 : round2 100 == 100) by by vm_compute.
  split.
  - rewrite <- R0. by apply round2_mono.
  - rewrite <- R100. by apply round2_mono.
Qed.

(** The advantage formula stays between 0 and 100 for a cut of at most
    every edge against a baseline cut of 0. *)
Lemma advantage_bounds (best_cut : Z) (max_possible_cut : nat) :
  (0 ≤ best_cut ≤ Z.of_nat max_possible_cut)%Z →
  0 <= advantage best_cut 0 max_possible_cut
  ∧ advantage best_cut 0 max_possible_cut <= 100.
Proof.
  intros [H0 Hmax]. unfold advantage. apply round2_bounds.
  - apply Qmult_le_0_compat; [|done]. unfold Qdiv.
    apply Qmult_le_0_compat.
    + change (inject_Z 0 <= inject_Z (best_cut - Z.of_nat 0)).
      rewrite <- Zle_Qle. lia.
    + apply Qinv_le_0_compat.
      change (inject_Z 0 <= inject_Z (Z.of_nat max_possible_cut `max` 1)).
      rewrite <- Zle_Qle. lia.
  - assert (Hd : inject_Z (best_cut - Z.of_nat 0)
                 / inject_Z (Z.of_nat max_possible_cut `max` 1) <= 1).
    { apply Qle_shift_div_r.
      - change (inject_Z 0 < inject_Z (Z.of_nat max_possible_cut `max` 1)).
        rewrite <- Zlt_Qlt. lia.
      - rewrite Qmult_1_l. rewrite <- Zle_Qle. lia. }
    lra.
Qed.

(** What a returned result is bounded by: the best cut value is a cut of
    at most every edge, reached by the cleaned form of an observed key; the
    baseline cut is 0; so the advantage percentage lies between 0 and
    100. *)
Theorem process_counts_bounds (counts : counts_dict) (members : list string)
  (ring_id : string) (risk_score : Q) (edges : list edge)
  (backend_name hw : string) (nshots : nat) (r : PartitionResult) :
  counts ≠ [] →
  _process_counts counts members ring_id risk_score edges
    backend_name hw nshots = Some r →
  (0 ≤ best_cut_value r ≤ Z.of_nat (max_possible_cut r))%Z
  ∧ max_possible_cut r = length edges
  ∧ (∃ p, p ∈ counts
          ∧ best_bitstring r = Some (clean (length members) p.1)
          ∧ Z.of_nat <$> _compute_maxcut_value (clean (length members) p.1) edges
            = Some (best_cut_value r))
  ∧ classical_cut_value r = 0%nat
  ∧ 0 <= quantum_advantage_pct r ∧ quantum_advantage_pct r <= 100.
Proof.
  intros Hne Hr.
  pose proof (process_counts_inv _ _ _ _ _ _ _ _ _ Hr)
    as (_ & Hbest & _ & _ & Hgreedy & _ & Hadv & _ & _ & Hmax & _).
  apply best_loop_highest in Hbest as (_ & Hp);
    [|apply take_nonempty; [lia | by apply sorted_counts_nonempty]].
  pose proof (process_counts_inv _ _ _ _ _ _ _ _ _ Hr) as (_ & Hbest & _).
  apply best_loop_spec in Hbest as (_ & _ & Hbest).
  destruct Hp as (p0 & _ & Hbs0).
  destruct Hbest as [[Hnone _] | (p & cut & Hp & Hbs & Hcut & Hval)];
    [congruence|].
  assert (Hle : (0 ≤ best_cut_value r ≤ Z.of_nat (length edges))%Z).
  { rewrite Hval. unfold _compute_maxcut_value in Hcut.
    apply cut_loop_inv in Hcut as [_ ?]. lia. }
  assert (Hc : classical_cut_value r = 0%nat).
  { pose proof (classical_greedy_maxcut_in_range _ _ _ Hgreedy) as Hrange.
    rewrite classical_greedy_maxcut_all_zero in Hgreedy by done.
    by injection Hgreedy as _ <-. }
  split; [by rewrite Hmax|]. split; [done|]. split.
  - exists p. split; [by eapply elem_of_take_sorted|]. split; [done|].
    by rewrite Hcut, Hval.
  - split; [done|]. rewrite Hadv, Hc. by apply advantage_bounds.
Qed.

Lemma process_counts_bounds_witness :
  ∃ r,
    _process_counts
      [(of_string "0101", 600%Z); (of_string "0011", 300%Z)]
      ring4_members "RING_001" 80 ring4_edges
      "aer_simulator" "simulator" SHOTS_SIM = Some r
    ∧ (0 ≤ best_cut_value r ≤ 4)%Z
    ∧ 0 <= quantum_advantage_pct r ∧ quantum_advantage_pct r <= 100.
Proof.
  assert (Hr : is_Some (_process_counts
                          [(of_string "0101", 600%Z); (of_string "0011", 300%Z)]
                          ring4_members "RING_001" 80 ring4_edges
                          "aer_simulator" "simulator" SHOTS_SIM))
    by (by vm_compute; eexists).
  destruct Hr as [r Hr]. exists r. split; [done|].
  assert (Hne : [(of_string "0101", 600%Z); (of_string "0011", 300%Z)]
                ≠ ([] : counts_dict)) by done.
  destruct (process_counts_bounds _ _ _ _ _ _ _ _ r Hne Hr)
    as (Hb & Hm & _ & _ & H0 & H100).
  rewrite Hm in Hb. by split.
Defined.

End ProcessCountsBounds.

Section QuantumScores.

Import MaxCut Agent.

Local Open Scope Q_scope.

Lemma select_group_members members (bs : pystr) c range g a :
  select_group members (Some bs) c range = Some g → a ∈ g → a ∈ members.
Proof.
  intros ->%select_group_spec (i & _ & Hi)%list_elem_of_omap.
  by eapply list_elem_of_lookup_2.
Qed.

Lemma dominant_minority_cases (g0 g1 : list string) a :
  a ∈ dominant_of g0 g1 ∨ a ∈ minority_of g0 g1 ↔ a ∈ g0 ∨ a ∈ g1.
Proof.
  unfold dominant_of, minority_of. destruct (length g0 <=? length g1); tauto.
Qed.

Lemma score_le_100 (x : Q) : round2 (Qmin x 100) <= 100.
Proof.
  destruct (round2_bounds 100) as [_ H100]; [lra | lra|].
  eapply Qle_trans; [|exact H100]. apply round2_mono, Q.le_min_r.
Qed.

Lemma score_nonneg (x : Q) : 0 <= x → 0 <= round2 (Qmin x 100).
Proof.
  intros Hx. destruct (round2_bounds 0) as [H0 _]; [lra | lra|].
  eapply Qle_trans; [exact H0|]. apply round2_mono.
  destruct (Q.min_spec x 100) as [[_ ->] | [_ ->]]; lra.
Qed.

(** The per-account scores of a returned result: only members of the ring
    are scored, every score is at most 100, and none is negative when the
    ring's risk score is not and the counts are positive; when the keys are
    bitstrings every member is scored. *)
Theorem quantum_scores_range (counts : counts_dict) (members : list string)
  (ring_id : string) (risk_score : Q) (edges : list edge)
  (backend_name hw : string) (nshots : nat) (r : PartitionResult) :
  counts ≠ [] →
  _process_counts counts members ring_id risk_score edges
    backend_name hw nshots = Some r →
  (∀ a score, quantum_scores r !! a = Some score →
     a ∈ members ∧ score <= 100
     ∧ (0 <= risk_score → positive_counts counts → 0 <= score))
  ∧ (bit_keys counts → ∀ a, a ∈ members → is_Some (quantum_scores r !! a)).
Proof.
  intros Hne Hr.
  destruct (process_counts_best_bitstring _ _ _ _ _ _ _ _ _ Hne Hr)
    as (_ & p & Hp & Hbs).
  pose proof (process_counts_inv _ _ _ _ _ _ _ _ _ Hr)
    as (mass & _ & Hg0 & Hg1 & _ & Hmass & _ & Hscores & _).
  rewrite Hbs in Hg0, Hg1.
  assert (Hlookup : ∀ a,
            quantum_scores r !! a
            = if decide (a ∈ minority_of (group_0 r) (group_1 r))
              then Some (minority_score risk_score)
              else if decide (a ∈ dominant_of (group_0 r) (group_1 r))
                   then Some (dominant_score risk_score mass) else None).
  { intros a. rewrite Hscores, !assign_scores_lookup.
    by rewrite lookup_empty. }
  split.
  - intros a score Ha. rewrite Hlookup in Ha. split.
    + assert (Hin : a ∈ group_0 r ∨ a ∈ group_1 r).
      { apply (proj1 (dominant_minority_cases _ _ a)).
        repeat case_decide; try (by right); by left. }
      destruct Hin as [Hin | Hin].
      * eapply select_group_members; [exact Hg0 | exact Hin].
      * eapply select_group_members; [exact Hg1 | exact Hin].
    + repeat case_decide; [| |done]; injection Ha as <-.
      * split; [apply score_le_100|]. intros Hrisk _.
        apply score_nonneg. lra.
      * split; [apply score_le_100|]. intros Hrisk Hpos.
        apply score_nonneg.
        assert (0 <= mass); [|lra].
        eapply mass_loop_nonneg; [| | |exact Hmass].
        -- by apply total_shots_pos.
        -- apply Forall_forall. intros q Hq%elem_of_take_sorted.
           by eapply (proj1 (Forall_forall _ _) Hpos).
        -- lra.
  - intros Hkeys a Ha. rewrite Hlookup.
    assert (Hperm : group_0 r ++ group_1 r ≡ₚ members).
    { destruct members as [|m members'] eqn:Hm;
        [by apply elem_of_nil in Ha|]. rewrite <- Hm in *.
      eapply select_groups_partition; [| |exact Hg0|exact Hg1].
      + apply length_clean. rewrite Hm. simpl. lia.
      + apply Forall_clean_bits.
        eapply (proj1 (Forall_forall _ _) Hkeys p Hp). }
    rewrite <- Hperm, elem_of_app in Ha.
    apply (proj2 (dominant_minority_cases _ _ a)) in Ha.
    repeat case_decide; [by eexists | by eexists | tauto].
Qed.

Lemma quantum_scores_range_witness :
  ∃ r,
    _process_counts
      [(of_string "0101", 600%Z); (of_string "0011", 300%Z)]
      ring4_members "RING_001" 80 ring4_edges
      "aer_simulator" "simulator" SHOTS_SIM = Some r
    ∧ ∀ a score, quantum_scores r !! a = Some score →
                 a ∈ ring4_members ∧ score <= 100.
Proof.
  assert (Hr : is_Some (_process_counts
                          [(of_string "0101", 600%Z); (of_string "0011", 300%Z)]
                          ring4_members "RING_001" 80 ring4_edges
                          "aer_simulator" "simulator" SHOTS_SIM))
    by (by vm_compute; eexists).
  destruct Hr as [r Hr]. exists r. split; [done|].
  assert (Hne : [(of_string "0101", 600%Z); (of_string "0011", 300%Z)]
                ≠ ([] : counts_dict)) by done.
  destruct (quantum_scores_range _ _ _ _ _ _ _ _ r Hne Hr) as [Hrange _].
  intros a score Ha. destruct (Hrange a score Ha) as (? & ? & _). by split.
Defined.

(** What makes [_process_counts] raise: an empty histogram for a non-empty
    member list (subscript of [None]), a non-empty histogram whose counts
    sum to 0 (division by zero), and an edge naming a position that is not
    a member (index out of range). *)
Theorem process_counts_raises (counts : counts_dict) (members : list string)
  (ring_id : string) (risk_score : Q) (edges : list edge)
  (backend_name hw : string) (nshots : nat) :
  (counts = [] → members ≠ [] →
   _process_counts counts members ring_id risk_score edges
     backend_name hw nshots = None)
  ∧ (counts ≠ [] → total_shots counts = 0%Z →
     _process_counts counts members ring_id risk_score edges
       backend_name hw nshots = None)
  ∧ (¬ in_range (length members) edges →
     _process_counts counts members ring_id risk_score edges
       backend_name hw nshots = None).
Proof.
  split; [|split].
  - intros -> Hm. unfold _process_counts. simpl.
    destruct members as [|m members]; [done|]. done.
  - intros Hne Htot.
    destruct (_process_counts counts members ring_id risk_score edges
                backend_name hw nshots) as [r|] eqn:Hr; [|done].
    exfalso. unfold _process_counts in Hr.
    destruct (best_loop _ _ _ _ _) as [[best_bs best_cut]|]; [|done].
    simpl in Hr.
    destruct (select_group _ _ "0"%char _) as [g0|]; [|done]. simpl in Hr.
    destruct (select_group _ _ "1"%char _) as [g1|]; [|done]. simpl in Hr.
    destruct (_classical_greedy_maxcut _ _) as [[cbs ccut]|]; [|done].
    simpl in Hr.
    destruct (mass_loop _ _ _ _ _) as [mass|]; [|done]. simpl in Hr.
    destruct (mapM _ _) as [probs|] eqn:Hprobs; [|done].
    assert (Hall : is_Some (mapM (λ q : pystr * Z, py_div q.2 (total_shots counts))
                              (sorted_counts counts))) by by eexists.
    apply mapM_is_Some in Hall.
    destruct (sorted_counts counts) as [|q l] eqn:Hs;
      [by apply sorted_counts_nonempty in Hs|].
    apply Forall_cons in Hall as [[x Hx] _].
    unfold py_div in Hx. by rewrite Htot in Hx.
  - intros Hout.
    destruct (_process_counts counts members ring_id risk_score edges
                backend_name hw nshots) as [r|] eqn:Hr; [|done].
    exfalso. apply Hout.
    apply process_counts_inv in Hr as (_ & _ & _ & _ & Hgreedy & _).
    by eapply classical_greedy_maxcut_in_range.
Qed.

End QuantumScores.

(** ** The fallback chain of [run] *)

Section RunFacts.

Import MaxCut Agent.

Lemma fallback_result_baseline ring_id members reason :
  baseline_fallback members (Fallback (_fallback_result ring_id members reason)).
Proof.
  eexists. split; [done|]. simpl. split; [done|].
  assert (Hlookup : ∀ a, baseline_scores members !! a
                         = if decide (a ∈ members) then Some 50%Q else None).
  { intros a. pose proof (assign_scores_lookup members 50%Q ∅ a) as H.
    by rewrite lookup_empty in H. }
  split; [|split; [|done]]; intros a Ha; rewrite Hlookup.
  - by rewrite decide_True.
  - by rewrite decide_False.
Qed.

(** The fields [_process_counts] copies from its arguments. *)
Lemma process_counts_fields counts members ring_id risk_score edges
  backend_name hw nshots r :
  _process_counts counts members ring_id risk_score edges backend_name hw nshots
  = Some r →
  hardware r = hw ∧ backend r = backend_name ∧ shots r = nshots
  ∧ Agent.ring_id r = ring_id ∧ n_qubits r = length members
  ∧ edges_analyzed r = length edges
  ∧ total_unique_bitstrings r = length counts.
Proof.
  unfold _process_counts. intros H.
  destruct (best_loop _ _ _ _ _) as [[best_bs best_cut]|]; [|done].
  simpl in H.
  destruct (select_group _ _ "0"%char _) as [g0|]; [|done]. simpl in H.
  destruct (select_group _ _ "1"%char _) as [g1|]; [|done]. simpl in H.
  destruct (_classical_greedy_maxcut _ _) as [[cbs ccut]|]; [|done].
  simpl in H.
  destruct (mass_loop _ _ _ _ _) as [p|]; [|done]. simpl in H.
  destruct (mapM _ _) as [probs|]; [|done]. simpl in H.
  by injection H as <-.
Qed.

Lemma select_group_subset members best_bs c range g a :
  select_group members best_bs c range = Some g → a ∈ g → a ∈ members.
Proof.
  revert g. induction range as [|i range IH]; intros g; simpl.
  - intros [= <-] H. by apply elem_of_nil in H.
  - destruct best_bs as [bs|]; [|done]. simpl.
    destruct (bs !! i) as [b|]; [|done]. simpl.
    destruct (decide (b = c)); [|apply IH].
    destruct (members !! i) as [m|] eqn:Hm; [|done]. simpl.
    destruct (select_group members (Some bs) c range) as [tl|]; [|done].
    simpl. intros [= <-] [-> | H]%elem_of_cons.
    + by eapply list_elem_of_lookup_2.
    + by eapply IH.
Qed.

(** Only accounts handed to [_process_counts] are scored. *)
Lemma process_counts_scored_members counts members ring_id risk_score edges
  backend_name hw nshots r a :
  _process_counts counts members ring_id risk_score edges backend_name hw nshots
  = Some r →
  is_Some (quantum_scores r !! a) → a ∈ members.
Proof.
  intros (mass & _ & Hg0 & Hg1 & _ & _ & _ & Hscores & _)%process_counts_inv.
  rewrite Hscores, !assign_scores_lookup, lookup_empty.
  intros Ha.
  assert (Hin : a ∈ group_0 r ∨ a ∈ group_1 r).
  { apply (proj1 (dominant_minority_cases _ _ a)).
    repeat case_decide; [by right | by left | by destruct Ha]. }
  destruct Hin as [Hin | Hin].
  - eapply select_group_subset; [exact Hg0 | exact Hin].
  - eapply select_group_subset; [exact Hg1 | exact Hin].
Qed.

(** When [run] falls back.  If the ring has fewer than 2 members, or the
    cost graph of its first [MAX_QUBITS_SIM] members has no edge, or the
    IBM path gives nothing (no connection, or [_run_on_ibm] returns [None])
    and the simulator path gives nothing either (qiskit missing, or its
    [try] block raises), [run] returns the deterministic fallback: score
    50.0 for each covered account and for no other, advantage 0.  The
    covered accounts are the whole ring when it is too small or qiskit is
    missing, and the first [MAX_QUBITS_SIM] members otherwise. *)
Theorem run_fallback_cases (W : World) (G : digraph_edges) (ring : Ring) :
  let members := default [] (member_accounts ring) in
  let ring_id := default "RING_001"%string (ring_id_field ring) in
  let risk := default 50%Q (risk_score ring) in
  length members < 2
  ∨ _get_graph_edges (take MAX_QUBITS_SIM members) G = []
  ∨ ((_connect W = false
      ∨ _run_on_ibm W G (take MAX_QUBITS_REAL members) ring_id risk = None)
     ∧ (QISKIT_AVAILABLE W = false
        ∨ aer_attempt W G (take MAX_QUBITS_SIM members) ring_id risk = None)) →
  baseline_fallback (fallback_cover W members) (run W G ring).
Proof.
  intros members ring_id risk Hcase. unfold run, fallback_cover.
  fold members ring_id risk.
  destruct (Nat.ltb_spec (length members) 2) as [Hlt | Hge]; simpl;
    [apply fallback_result_baseline|].
  assert (Hibm : (if _connect W
                  then _run_on_ibm W G (take MAX_QUBITS_REAL members)
                         ring_id risk
                  else None) = None).
  { destruct Hcase as [Hlt | [Hnil | [[Hconn | Hnone] _]]]; [lia | | |].
    - destruct (_connect W); [|done]. unfold _run_on_ibm.
      rewrite (get_graph_edges_take_empty members G MAX_QUBITS_REAL
                 MAX_QUBITS_SIM); [done | unfold MAX_QUBITS_REAL,
                 MAX_QUBITS_SIM; lia | done].
    - by rewrite Hconn.
    - by destruct (_connect W). }
  rewrite Hibm.
  destruct (QISKIT_AVAILABLE W) eqn:Hq; simpl;
    [|apply fallback_result_baseline].
  unfold _run_on_aer.
  destruct (_get_graph_edges (take MAX_QUBITS_SIM members) G)
    as [|e edges] eqn:He; [apply fallback_result_baseline|].
  destruct Hcase as [Hlt | [Hnil | [_ [Hno | Hnone]]]];
    [lia | done | done |].
  unfold aer_attempt in Hnone. rewrite He in Hnone. rewrite Hnone.
  apply fallback_result_baseline.
Qed.

Lemma run_fallback_cases_witness :
  baseline_fallback (take 8 nine_members)
    (run simulator_world [] (ring_of nine_members 80)).
Proof.
  apply (run_fallback_cases simulator_world [] (ring_of nine_members 80)).
  right. left. by vm_compute.
Defined.

(** Where a processed result of [run] comes from.  The ring has at least
    2 members and the cost graph of the members used has an edge; the
    result is either from IBM hardware, after a successful connection, on
    the first [MAX_QUBITS_REAL] members with [SHOTS_REAL] shots, or from
    the Aer simulator, with qiskit present, on the first [MAX_QUBITS_SIM]
    members with [SHOTS_SIM] shots.  Without a token or without the IBM
    runtime it is never a hardware result. *)
Theorem run_processed_provenance (W : World) (G : digraph_edges) (ring : Ring)
  (r : PartitionResult) :
  let members := default [] (member_accounts ring) in
  run W G ring = Processed r →
  2 ≤ length members
  ∧ 0 < edges_analyzed r
  ∧ n_qubits r ≤ MAX_QUBITS_SIM
  ∧ ((hardware r = "real"%string ∧ _connect W = true
      ∧ shots r = SHOTS_REAL
      ∧ n_qubits r = length (take MAX_QUBITS_REAL members))
     ∨ (hardware r = "simulator"%string ∧ backend r = "aer_simulator"%string
        ∧ QISKIT_AVAILABLE W = true ∧ shots r = SHOTS_SIM
        ∧ n_qubits r = length (take MAX_QUBITS_SIM members)))
  ∧ (IBM_RUNTIME_AVAILABLE W = false ∨ ibm_token W = ""%string →
     hardware r = "simulator"%string).
Proof.
  intros members. unfold run. fold members.
  destruct (Nat.ltb_spec (length members) 2) as [Hlt | Hge]; [done|].
  set (ring_id := default "RING_001"%string (ring_id_field ring)).
  set (risk := default 50%Q (risk_score ring)).
  assert (Haer : QISKIT_AVAILABLE W = true →
                 _run_on_aer W G (take MAX_QUBITS_SIM members) ring_id risk
                 = Processed r →
                 0 < edges_analyzed r
                 ∧ hardware r = "simulator"%string
                 ∧ backend r = "aer_simulator"%string
                 ∧ shots r = SHOTS_SIM
                 ∧ n_qubits r = length (take MAX_QUBITS_SIM members)).
  { intros _. unfold _run_on_aer.
    destruct (_get_graph_edges (take MAX_QUBITS_SIM members) G)
      as [|e edges] eqn:He; [done|].
    destruct (aer_counts W _ _) as [counts|]; [|done]. simpl.
    destruct (_process_counts _ _ _ _ _ _ _ _) as [r'|] eqn:Hr; [|done].
    intros [= ->].
    apply process_counts_fields in Hr as (-> & -> & -> & _ & -> & -> & _).
    simpl. repeat split; lia. }
  assert (Hcap8 : length (take MAX_QUBITS_SIM members) ≤ MAX_QUBITS_SIM)
    by (rewrite length_take; lia).
  assert (Hcap5 : length (take MAX_QUBITS_REAL members) ≤ MAX_QUBITS_SIM)
    by (rewrite length_take; unfold MAX_QUBITS_REAL, MAX_QUBITS_SIM; lia).
  destruct (_connect W) eqn:Hconn.
  - destruct (_run_on_ibm W G (take MAX_QUBITS_REAL members) ring_id risk)
      as [r'|] eqn:Hibm.
    + intros [= ->]. unfold _run_on_ibm in Hibm.
      destruct (_get_graph_edges (take MAX_QUBITS_REAL members) G)
        as [|e edges] eqn:He; [done|].
      unfold _get_best_backend in Hibm.
      destruct (least_busy W _) as [name|]; [|done]. simpl in Hibm.
      destruct (ibm_counts W _ _) as [counts|]; [|done]. simpl in Hibm.
      apply process_counts_fields in Hibm as (Hh & _ & Hs & _ & Hn & Hedges & _).
      split; [done|]. split; [rewrite Hedges; simpl; lia|].
      split; [by rewrite Hn|]. split; [by left|].
      unfold _connect in Hconn.
      intros [Hrt | Htok]; [by rewrite Hrt in Hconn|].
      rewrite Htok in Hconn. by rewrite orb_true_r in Hconn.
    + destruct (QISKIT_AVAILABLE W) eqn:Hq; [|done].
      intros (He & Hh & Hb & Hs & Hn)%Haer; [|done].
      split; [done|]. split; [done|]. split; [by rewrite Hn|].
      split; [by right|done].
  - destruct (QISKIT_AVAILABLE W) eqn:Hq; [|done].
    intros (He & Hh & Hb & Hs & Hn)%Haer; [|done].
    split; [done|]. split; [done|]. split; [by rewrite Hn|].
    split; [by right|done].
Qed.

Lemma run_processed_provenance_witness :
  ∃ r,
    run simulator_world ring4_graph (ring_of ring4_members 80) = Processed r
    ∧ hardware r = "simulator"%string
    ∧ n_qubits r ≤ MAX_QUBITS_SIM.
Proof.
  assert (Hr : ∃ r, run simulator_world ring4_graph (ring_of ring4_members 80)
                    = Processed r) by (eexists; by vm_compute).
  destruct Hr as [r Hr]. exists r. split; [done|].
  destruct (run_processed_provenance simulator_world ring4_graph
              (ring_of ring4_members 80) r Hr)
    as (_ & _ & Hn & _ & Hsim).
  split; [|done]. apply Hsim. by right.
Defined.

(** Whatever [run] returns, it scores only accounts of the ring; a
    processed result scores only accounts among the first
    [MAX_QUBITS_SIM]. *)
Theorem run_scores_only_members (W : World) (G : digraph_edges) (ring : Ring)
  (a : string) :
  let members := default [] (member_accounts ring) in
  is_Some (result_scores (run W G ring) !! a) →
  a ∈ members
  ∧ (∀ r, run W G ring = Processed r → a ∈ take MAX_QUBITS_SIM members).
Proof.
  intros members. unfold run. fold members.
  set (ring_id := default "RING_001"%string (ring_id_field ring)).
  set (risk := default 50%Q (risk_score ring)).
  assert (Hfb : ∀ reason l,
            is_Some (result_scores (Fallback (_fallback_result ring_id l reason))
                       !! a) → a ∈ l).
  { intros reason l Ha.
    destruct (fallback_result_baseline ring_id l reason)
      as (f & [= <-] & _ & _ & Hnone & _).
    destruct (decide (a ∈ l)) as [|Hnin]; [done|].
    simpl in Ha, Hnone. rewrite (Hnone a Hnin) in Ha. by destruct Ha. }
  assert (Hsub : ∀ k, take k members ⊆ members) by (intros k; apply subseteq_take).
  assert (Haer : is_Some (result_scores
                            (_run_on_aer W G (take MAX_QUBITS_SIM members)
                               ring_id risk) !! a) →
                 a ∈ take MAX_QUBITS_SIM members).
  { unfold _run_on_aer.
    destruct (_get_graph_edges (take MAX_QUBITS_SIM members) G)
      as [|e edges]; [apply Hfb|].
    destruct (aer_counts W _ _) as [counts|]; [|apply Hfb]. simpl.
    destruct (_process_counts _ _ _ _ _ _ _ _) as [r'|] eqn:Hr; [|apply Hfb].
    simpl. by eapply process_counts_scored_members. }
  destruct (length members <? 2).
  { intros Ha%Hfb. split; [done|]. by intros r. }
  destruct (if _connect W
            then _run_on_ibm W G (take MAX_QUBITS_REAL members) ring_id risk
            else None) as [r'|] eqn:Hibm.
  - destruct (_connect W); [|done]. unfold _run_on_ibm in Hibm.
    destruct (_get_graph_edges (take MAX_QUBITS_REAL members) G)
      as [|e edges]; [done|].
    destruct (_get_best_backend W _) as [name|]; [|done]. simpl in Hibm.
    destruct (ibm_counts W _ _) as [counts|]; [|done]. simpl in Hibm.
    simpl. intros Ha.
    eapply process_counts_scored_members in Ha; [|exact Hibm].
    assert (Hin : a ∈ take MAX_QUBITS_SIM members).
    { assert (H58 : take MAX_QUBITS_REAL members
                    = take MAX_QUBITS_REAL (take MAX_QUBITS_SIM members)).
      { rewrite take_take. f_equal. }
      rewrite H58 in Ha. by eapply subseteq_take. }
    split; [by apply (Hsub MAX_QUBITS_SIM)|]. by intros r _.
  - destruct (QISKIT_AVAILABLE W).
    + intros Ha%Haer. split; [by apply (Hsub MAX_QUBITS_SIM)|]. by intros r _.
    + intros Ha%Hfb. split; [done|]. by intros r.
Qed.

Lemma run_scores_only_members_witness :
  "B"%string ∈ ring4_members
  ∧ is_Some (result_scores
               (run simulator_world ring4_graph (ring_of ring4_members 80))
               !! "B"%string).
Proof.
  assert (Hs : is_Some (result_scores
                          (run simulator_world ring4_graph
                             (ring_of ring4_members 80)) !! "B"%string))
    by (by vm_compute; eexists).
  split; [|done].
  by destruct (run_scores_only_members simulator_world ring4_graph
                 (ring_of ring4_members 80) "B"%string Hs) as [H _].
Defined.

End RunFacts.

(** ** [parse_csv] *)

Section CsvParserFacts.

Import CsvParser.

Variable Cell : Type.
Variable to_numeric : Cell → option Q.
Variable to_datetime : Cell → option Z.

#[local] Abbreviation coerce := (coerce Cell to_numeric to_datetime).
#[local] Abbreviation valid_row := (valid_row Cell to_numeric to_datetime).
#[local] Abbreviation retained := (retained Cell to_numeric to_datetime).
#[local] Abbreviation parse_csv := (parse_csv Cell to_numeric to_datetime).
#[local] Abbreviation dropna := (dropna Cell).
#[local] Abbreviation complete := (complete Cell).

Lemma omap_cons_eq {A B} (f : A → option B) (x : A) (l : list A) :
  omap f (x :: l)
  = match f x with Some y => y :: omap f l | None => omap f l end.
Proof. done. Qed.

(** A row survives [dropna] exactly when it is valid. *)
Lemma complete_coerce_valid (r : RawRow Cell) :
  is_Some (complete (coerce r)) ↔ valid_row r.
Proof.
  unfold CsvParser.complete, CsvParser.coerce, CsvParser.valid_row. simpl.
  destruct (raw_sender_id Cell r), (raw_receiver_id Cell r),
    (to_numeric (raw_amount Cell r)), (to_datetime (raw_timestamp Cell r));
    simpl; split; try (intros [? ?]; done);
    try (intros (H1 & H2 & H3 & H4);
         first [by destruct H1 | by destruct H2 | by destruct H3
               | by destruct H4]);
    intros; repeat split; by eexists.
Qed.

Lemma dropna_retained (rows : list (RawRow Cell)) :
  dropna (coerce <$> retained rows) = dropna (coerce <$> rows).
Proof.
  unfold CsvParser.dropna, CsvParser.retained.
  induction rows as [|r rows IH]; [done|].
  rewrite filter_cons, (fmap_cons _ r rows), omap_cons_eq.
  destruct (decide (valid_row r)) as [Hv | Hv].
  - rewrite fmap_cons, omap_cons_eq. by rewrite IH.
  - destruct (complete (coerce r)) as [t|] eqn:Ht; [|done].
    exfalso. apply Hv, complete_coerce_valid. by eexists.
Qed.

Lemma length_dropna (rows : list (RawRow Cell)) :
  length (dropna (coerce <$> rows)) = length (retained rows).
Proof.
  unfold CsvParser.dropna, CsvParser.retained.
  induction rows as [|r rows IH]; [done|].
  rewrite filter_cons, fmap_cons, omap_cons_eq.
  destruct (decide (valid_row r)) as [Hv | Hv].
  - apply complete_coerce_valid in Hv as [t ->]. simpl. by rewrite IH.
  - destruct (complete (coerce r)) as [t|] eqn:Ht; [|done].
    exfalso. apply Hv, complete_coerce_valid. by eexists.
Qed.

(** The timestamps kept are those of the valid rows, in order. *)
Lemma timestamps_dropna (rows : list (RawRow Cell)) :
  timestamp Cell <$> dropna (coerce <$> rows)
  = omap (λ r, to_datetime (raw_timestamp Cell r)) (retained rows).
Proof.
  unfold CsvParser.dropna, CsvParser.retained.
  induction rows as [|r rows IH]; [done|].
  rewrite filter_cons, fmap_cons, omap_cons_eq.
  destruct (decide (valid_row r)) as [Hv | Hv].
  - pose proof Hv as [t Ht]%complete_coerce_valid. rewrite Ht.
    rewrite fmap_cons, omap_cons_eq, IH.
    unfold CsvParser.complete, CsvParser.coerce in Ht. simpl in Ht.
    destruct (raw_sender_id Cell r), (raw_receiver_id Cell r),
      (to_numeric (raw_amount Cell r)),
      (to_datetime (raw_timestamp Cell r)); simpl in *; try done.
    by injection Ht as <-.
  - destruct (complete (coerce r)) as [t|] eqn:Ht; [|done].
    exfalso. apply Hv, complete_coerce_valid. by eexists.
Qed.



Lemma missing_columns_nil (cols : list string) :
  (∀ c, c ∈ REQUIRED_COLUMNS → c ∈ cols) → missing_columns cols = [].
Proof.
  intros Hall. unfold missing_columns.
  destruct (filter (λ col, col ∉ cols) REQUIRED_COLUMNS) as [|c l] eqn:Hf;
    [done|].
  assert (Hc : c ∈ filter (λ col, col ∉ cols) REQUIRED_COLUMNS)
    by (rewrite Hf; left).
  apply list_elem_of_filter in Hc as [Habs Hreq]. by apply Hall in Hreq.
Qed.


End CsvParserFacts.

Section CsvParserExamples.

Import CsvParser.


End CsvParserExamples.

Section CsvGraphFacts.

Import CsvParser.

Variable Cell : Type.
Variable to_numeric : Cell → option Q.
Variable to_datetime : Cell → option Z.

#[local] Abbreviation parse_csv := (parse_csv Cell to_numeric to_datetime).

(** A dictionary built with one entry per element of a set. *)
Lemma lookup_keyed `{Countable K} {V} (f : K → V) (S : gset K) (k : K) :
  (list_to_map ((λ k, (k, f k)) <$> elements S) : gmap K V) !! k
  = if decide (k ∈ S) then Some (f k) else None.
Proof.
  assert (Hfst : ((λ k, (k, f k)) <$> elements S).*1 = elements S).
  { rewrite <- list_fmap_compose. apply list_fmap_id. }
  destruct (decide (k ∈ S)) as [Hin | Hnin].
  - apply elem_of_list_to_map; [rewrite Hfst; apply NoDup_elements|].
    apply list_elem_of_fmap. exists k. split; [done|]. by apply elem_of_elements.
  - apply not_elem_of_list_to_map_1. rewrite Hfst. by rewrite elem_of_elements.
Qed.

Lemma size_keyed `{Countable K} {V} (f : K → V) (S : gset K) :
  size (list_to_map ((λ k, (k, f k)) <$> elements S) : gmap K V) = size S.
Proof.
  rewrite map_size_list_to_map.
  - by rewrite length_fmap.
  - rewrite <- list_fmap_compose. rewrite list_fmap_id. apply NoDup_elements.
Qed.

Lemma size_list_to_set_le `{Countable K} (l : list K) :
  size (list_to_set l : gset K) ≤ length l.
Proof.
  induction l as [|x l IH].
  { rewrite list_to_set_nil, size_empty. simpl. lia. }
  rewrite list_to_set_cons, size_union_alt, size_singleton. simpl.
  assert (Hsub : list_to_set l ∖ {[x]} ⊆ (list_to_set l : gset K))
    by apply subseteq_difference_l, reflexivity.
  apply subseteq_size in Hsub. lia.
Qed.

Lemma elem_of_all_accounts (df : list (Transaction Cell)) a :
  a ∈ all_accounts Cell df
  ↔ ∃ r, r ∈ df ∧ (sender_id Cell r = a ∨ receiver_id Cell r = a).
Proof.
  unfold all_accounts.
  rewrite elem_of_union, !elem_of_list_to_set, !list_elem_of_fmap. split.
  - intros [(r & -> & Hr) | (r & -> & Hr)]; exists r; auto.
  - intros (r & Hr & [<- | <-]); [left | right]; by exists r.
Qed.

Lemma elem_of_edge_keys (df : list (Transaction Cell)) k :
  k ∈ (list_to_set (pair_of Cell <$> df) : gset (string * string))
  ↔ ∃ r, r ∈ df ∧ pair_of Cell r = k.
Proof.
  rewrite elem_of_list_to_set, list_elem_of_fmap. split.
  - intros (r & -> & Hr). by exists r.
  - intros (r & Hr & <-). by exists r.
Qed.

(** The shape of the graph [parse_csv] builds.  Its nodes are exactly the
    accounts that send or receive in a kept row, its edges exactly the
    (sender, receiver) pairs of kept rows, so both ends of an edge are
    nodes; the metadata counts are the sizes of the node and edge sets, and
    there are at most as many edges as kept rows and at most twice as many
    accounts. *)
Theorem parse_csv_graph_shape (frame : RawFrame Cell)
  (df : list (Transaction Cell)) (G : DiGraph Cell) (metadata : Metadata) :
  parse_csv frame = inr (df, G, metadata) →
  (∀ a, is_Some (nodes Cell G !! a)
        ↔ ∃ r, r ∈ df ∧ (sender_id Cell r = a ∨ receiver_id Cell r = a))
  ∧ (∀ u v, is_Some (edges Cell G !! (u, v))
            ↔ ∃ r, r ∈ df ∧ sender_id Cell r = u ∧ receiver_id Cell r = v)
  ∧ (∀ u v, is_Some (edges Cell G !! (u, v)) →
            is_Some (nodes Cell G !! u) ∧ is_Some (nodes Cell G !! v))
  ∧ total_accounts metadata = size (nodes Cell G)
  ∧ total_edges metadata = size (edges Cell G)
  ∧ total_edges metadata ≤ total_transactions metadata
  ∧ total_accounts metadata ≤ 2 * total_transactions metadata.
Proof.
  unfold CsvParser.parse_csv.
  destruct (missing_columns _); [|done]. intros [= <- <- <-]. simpl.
  set (df := dropna Cell _).
  assert (Hnode : ∀ a, is_Some (nodes Cell (build_graph Cell df) !! a)
                       ↔ a ∈ all_accounts Cell df).
  { intros a. unfold build_graph. simpl. rewrite lookup_keyed.
    destruct (decide (a ∈ all_accounts Cell df)) as [Hin | Hnin].
    - split; [done | by eexists].
    - split; [by intros [? ?] | done]. }
  assert (Hedge : ∀ k, is_Some (build_edges Cell df !! k)
                       ↔ ∃ r, r ∈ df ∧ pair_of Cell r = k).
  { intros k. unfold build_edges. rewrite lookup_keyed.
    rewrite <- elem_of_edge_keys. case_decide.
    - split; [done | by eexists].
    - split; [by intros [? ?] | done]. }
  split; [|split; [|split; [|split; [|split; [|split]]]]].
  - intros a. by rewrite Hnode, elem_of_all_accounts.
  - intros u v. rewrite (Hedge (u, v)). unfold pair_of.
    split; intros (r & Hr & H); exists r; (split; [done|]).
    + by injection H as <- <-.
    + destruct H as [<- <-]. done.
  - intros u v (r & Hr & Hp)%Hedge. unfold pair_of in Hp.
    injection Hp as <- <-.
    split; apply Hnode, elem_of_all_accounts; exists r; eauto.
  - unfold build_graph. simpl. by rewrite size_keyed.
  - done.
  - unfold build_edges. rewrite size_keyed.
    etrans; [apply size_list_to_set_le|]. by rewrite length_fmap.
  - unfold all_accounts. rewrite size_union_alt.
    pose proof (size_list_to_set_le (sender_id Cell <$> df)) as H1.
    pose proof (size_list_to_set_le (receiver_id Cell <$> df)) as H2.
    assert (H3 : list_to_set (receiver_id Cell <$> df)
                   ∖ list_to_set (sender_id Cell <$> df)
                 ⊆ (list_to_set (receiver_id Cell <$> df) : gset string))
      by apply subseteq_difference_l, reflexivity.
    apply subseteq_size in H3. rewrite !length_fmap in *. lia.
Qed.


End CsvGraphFacts.

Section CsvGraphExamples.

Import CsvParser.

Lemma parse_csv_graph_shape_witness :
  ∃ df G metadata,
    parse_csv (option Z) example_numeric example_datetime
      {| columns := example_header; rows := example_rows |}
    = inr (df, G, metadata)
    ∧ total_edges metadata ≤ total_transactions metadata
    ∧ is_Some (nodes (option Z) G !! "C"%string).
Proof.
  destruct (parse_csv (option Z) example_numeric example_datetime
              {| columns := example_header; rows := example_rows |})
    as [err | [[df G] metadata]] eqn:Hp; [by vm_compute in Hp|].
  exists df, G, metadata. split; [done|].
  destruct (parse_csv_graph_shape _ _ _ _ _ _ _ Hp)
    as (_ & Hedges & Hends & _ & _ & Hle & _).
  split; [done|].
  apply (Hends "B"%string "C"%string), Hedges.
  vm_compute in Hp. injection Hp as <- _ _.
  eexists. split; [do 2 right; left|]. done.
Defined.


End CsvGraphExamples.

(** ** The stored analysis: [/api/analyze] and [/api/whatif] *)

Section EndpointFacts.

Import CsvParser Main.

Variable Cell : Type.
Variable to_numeric : Cell → option Q.
Variable to_datetime : Cell → option Z.
Variable FinalOutput : Type.
Variable pipeline :
  list (Transaction Cell) → DiGraph Cell → Metadata → exn + FinalOutput.
Variable json_response : FinalOutput → exn + FinalOutput.
Variable WhatIfResult : Type.
Variable simulate :
  DiGraph Cell → option (list (Transaction Cell)) → FinalOutput → json
  → WhatIfResult.

#[local] Abbreviation State := (AppState Cell FinalOutput).
#[local] Abbreviation parse := (parse_csv Cell to_numeric to_datetime).
#[local] Abbreviation analyze :=
  (analyze_csv Cell to_numeric to_datetime FinalOutput pipeline json_response).
#[local] Abbreviation whatif :=
  (whatif_simulate Cell FinalOutput WhatIfResult simulate).
#[local] Abbreviation graph_of := (latest_graph Cell FinalOutput).
#[local] Abbreviation df_of := (latest_df Cell FinalOutput).
#[local] Abbreviation results_of := (latest_results Cell FinalOutput).


(** What one What-If request does.  It never changes the stored state and
    calls the simulator at most once.  It calls it exactly when an analysis
    is stored (a stored graph with a node, stored results), the body is an
    object and its ["nodes"] value is truthy; the call is made on the
    stored graph, frame and results with that value, and its result is the
    response.  Without a stored analysis the response is 400 whatever the
    body; with one, a body whose ["nodes"] is absent, [null] or an empty
    list is answered 400 and a body that is not an object 500. *)
Theorem whatif_simulate_behaviour (st : State) (body : json) :
  let st' := (whatif st body).1.1 in
  let resp := (whatif st body).1.2 in
  let calls := (whatif st body).2 in
  st' = st
  ∧ length calls ≤ 1
  ∧ (calls ≠ []
     ↔ analysis_stored Cell FinalOutput st
       ∧ ∃ fields, body = JObj fields
                   ∧ truthy (default (JArr []) (field "nodes" fields)) = true)
  ∧ (∀ c, c ∈ calls →
       graph_of st = Some (call_graph Cell FinalOutput c)
       ∧ call_df Cell FinalOutput c = df_of st
       ∧ results_of st = Some (call_results Cell FinalOutput c)
       ∧ (∃ fields, body = JObj fields
                    ∧ call_nodes Cell FinalOutput c
                      = default (JArr []) (field "nodes" fields))
       ∧ resp = Simulated WhatIfResult
                  (simulate (call_graph Cell FinalOutput c)
                     (call_df Cell FinalOutput c)
                     (call_results Cell FinalOutput c)
                     (call_nodes Cell FinalOutput c)))
  ∧ (¬ analysis_stored Cell FinalOutput st →
     resp = Rejected WhatIfResult (Http 400))
  ∧ (analysis_stored Cell FinalOutput st →
     (∀ fields, body = JObj fields →
        field "nodes" fields = None
        ∨ field "nodes" fields = Some (JArr [])
        ∨ field "nodes" fields = Some JNull →
        resp = Rejected WhatIfResult (Http 400))
     ∧ ((∀ fields, body ≠ JObj fields) →
        resp = Rejected WhatIfResult (Http 500))).
Proof.
  assert (Hunstored : ¬ analysis_stored Cell FinalOutput st →
                      whatif st body = (st, Rejected WhatIfResult (Http 400), [])).
  { unfold analysis_stored, whatif_simulate. intros Hno.
    destruct (graph_of st) as [G|]; [|done].
    destruct (graph_truthy Cell (Some G)) eqn:Hg; [|done].
    destruct (results_of st) as [results|]; [|done].
    exfalso. apply Hno. split; [done | by eexists]. }
  assert (Hstored : analysis_stored Cell FinalOutput st →
            ∃ G results,
              graph_of st = Some G ∧ results_of st = Some results
              ∧ whatif st body
                = match body with
                  | JObj fields =>
                      let n := default (JArr []) (field "nodes" fields) in
                      if truthy n
                      then (st,
                            Simulated WhatIfResult
                              (simulate G (df_of st) results n),
                            [ {| call_graph := G; call_df := df_of st;
                                 call_results := results; call_nodes := n |} ])
                      else (st, Rejected WhatIfResult (Http 400), [])
                  | _ => (st, Rejected WhatIfResult (Http 500), [])
                  end).
  { unfold analysis_stored, whatif_simulate. intros [Hg [results HR]].
    destruct (graph_of st) as [G|]; [|done]. exists G, results.
    split; [done|]. split; [done|]. rewrite Hg, HR.
    destruct body as [ | b | q | s | items | fields ]; try done.
    simpl. by destruct (truthy (default (JArr []) (field "nodes" fields))). }
  assert (Hdec : analysis_stored Cell FinalOutput st
                 ∨ ¬ analysis_stored Cell FinalOutput st).
  { unfold analysis_stored.
    destruct (graph_truthy Cell (graph_of st)), (results_of st);
      [left; split; [done | by eexists] | right | right | right];
      intros [? [? ?]]; done. }
  destruct Hdec as [Hyes | Hno].
  - destruct (Hstored Hyes) as (G & results & HG & HR & Hw). rewrite Hw.
    destruct body as [ | b | q | s | items | fields ];
      try (simpl; split; [done|]; split; [lia|]; split;
           [split; [done | by intros (_ & ? & ? & _)]|];
           split; [by intros ? ?%elem_of_nil|];
           split; [done|]; intros _; split; [by intros ? ?|done]).
    simpl.
    destruct (truthy (default (JArr []) (field "nodes" fields))) eqn:Ht; simpl.
    + split; [done|]. split; [lia|]. split.
      { split; [|done]. intros _. split; [done|]. by exists fields. }
      split.
      { intros c ->%list_elem_of_singleton. simpl.
        split; [done|]. split; [done|]. split; [done|].
        split; [by exists fields | done]. }
      split; [done|]. intros _. split.
      * intros fields' [= <-] [Hf | [Hf | Hf]]; rewrite Hf in Ht; done.
      * intros Habs. by destruct (Habs fields).
    + split; [done|]. split; [lia|]. split.
      { split; [done|]. intros (_ & fields' & [= <-] & Ht'). congruence. }
      split; [by intros ? ?%elem_of_nil|].
      split; [done|]. intros _. split; [done|].
      intros Habs. by destruct (Habs fields).
  - rewrite (Hunstored Hno). simpl.
    split; [done|]. split; [lia|]. split.
    { split; [done | by intros [? _]]. }
    split; [by intros ? ?%elem_of_nil|].
    split; [done|]. by intros ?.
Qed.

End EndpointFacts.

(** ** The visualisation data *)

Section VizFacts.

Import Main.

Variable MAXN : Z.
Variable MAXE : Z.

#[local] Abbreviation at_cap := (at_cap MAXN).
#[local] Abbreviation add_neighbours := (add_neighbours MAXN).
#[local] Abbreviation add_neighbourhoods := (add_neighbourhoods MAXN).
#[local] Abbreviation fill_nodes := (fill_nodes MAXN).
#[local] Abbreviation included := (included MAXN).
#[local] Abbreviation viz_edge_loop := (viz_edge_loop MAXE).
#[local] Abbreviation build := (_build_graph_viz_data MAXN MAXE).

Lemma at_cap_false (X : gset string) :
  at_cap X = false → (Z.of_nat (size X) < MAXN)%Z.
Proof. unfold Main.at_cap. intros H%Z.leb_gt. lia. Qed.

Lemma at_cap_true (X : gset string) :
  at_cap X = true → (MAXN ≤ Z.of_nat (size X))%Z.
Proof. unfold Main.at_cap. intros H%Z.leb_le. lia. Qed.

Lemma size_add_one (x : string) (X : gset string) :
  size ({[x]} ∪ X) ≤ S (size X).
Proof.
  rewrite size_union_alt, size_singleton.
  assert (Hsub : X ∖ {[x]} ⊆ X) by apply subseteq_difference_l, reflexivity.
  apply subseteq_size in Hsub. lia.
Qed.

(** The inner loop keeps what is included, adds only neighbours and stays
    within the cap when it starts below it. *)
Lemma add_neighbours_spec nbs (X : gset string) :
  X ⊆ add_neighbours nbs X
  ∧ add_neighbours nbs X ⊆ X ∪ list_to_set nbs
  ∧ (at_cap X = false → (Z.of_nat (size (add_neighbours nbs X)) ≤ MAXN)%Z).
Proof.
  revert X. induction nbs as [|nb nbs IH]; intros X; simpl.
  - split; [done|]. split; [apply union_subseteq_l|].
    intros H%at_cap_false. lia.
  - pose proof (size_add_one nb X) as Hsz.
    destruct (at_cap ({[nb]} ∪ X)) eqn:Hcap.
    + split; [apply union_subseteq_r|]. split.
      * apply union_least; [|apply union_subseteq_l].
        etrans; [|apply union_subseteq_r]. apply union_subseteq_l.
      * intros H%at_cap_false. lia.
    + destruct (IH ({[nb]} ∪ X)) as (H1 & H2 & H3). split.
      * etrans; [apply union_subseteq_r | exact H1].
      * split; [|by intros _; apply H3].
        etrans; [exact H2|]. apply union_least.
        -- apply union_least; [|apply union_subseteq_l].
           etrans; [|apply union_subseteq_r]. apply union_subseteq_l.
        -- etrans; [|apply union_subseteq_r]. apply union_subseteq_r.
Qed.

Lemma elem_of_predecessors G node nbs nb :
  predecessors G node = Some nbs → nb ∈ nbs →
  node ∈ view_nodes G ∧ ∃ e, e ∈ view_edges G ∧ e.1.1 = nb.
Proof.
  unfold predecessors. case_decide; [|done]. intros [= <-].
  intros (e & -> & [_ He]%list_elem_of_filter)%list_elem_of_fmap.
  split; [done|]. by exists e.
Qed.

Lemma elem_of_successors G node nbs nb :
  successors G node = Some nbs → nb ∈ nbs →
  node ∈ view_nodes G ∧ ∃ e, e ∈ view_edges G ∧ e.1.2 = nb.
Proof.
  unfold successors. case_decide; [|done]. intros [= <-].
  intros (e & -> & [_ He]%list_elem_of_filter)%list_elem_of_fmap.
  split; [done|]. by exists e.
Qed.

Lemma add_neighbourhoods_spec G suspicious (X Y : gset string) :
  well_formed_view G →
  add_neighbourhoods G suspicious X = Some Y →
  X ⊆ Y
  ∧ (∀ a, a ∈ Y → a ∈ X ∨ a ∈ view_nodes G)
  ∧ (∀ B, (MAXN ≤ B)%Z → (Z.of_nat (size X) ≤ B)%Z →
          (Z.of_nat (size Y) ≤ B)%Z).
Proof.
  intros [_ Hwf]. revert X.
  induction suspicious as [|node rest IH]; intros X; simpl.
  - intros [= <-]. repeat split; auto.
  - destruct (at_cap X) eqn:Hcap.
    + intros [= <-]. repeat split; auto.
    + destruct (predecessors G node) as [preds|] eqn:Hp; [|done]. simpl.
      destruct (successors G node) as [succs|] eqn:Hs; [|done]. simpl.
      intros (H1 & H2 & H3)%IH.
      destruct (add_neighbours_spec (preds ++ succs) X) as (A1 & A2 & A3).
      split; [by etrans|]. split.
      * intros a [Ha | Ha]%H2; [|by right].
        apply A2 in Ha. apply elem_of_union in Ha as [Ha | Ha]; [by left|].
        right. apply elem_of_list_to_set, elem_of_app in Ha as [Ha | Ha].
        -- destruct (elem_of_predecessors _ _ _ _ Hp Ha) as (_ & e & He & <-).
           by apply Hwf.
        -- destruct (elem_of_successors _ _ _ _ Hs Ha) as (_ & e & He & <-).
           by apply Hwf.
      * intros B HB _. apply H3; [done|].
        specialize (A3 Hcap). lia.
Qed.

Lemma add_neighbourhoods_returns G suspicious (X : gset string) :
  (∀ a, a ∈ suspicious → a ∈ view_nodes G) →
  is_Some (add_neighbourhoods G suspicious X).
Proof.
  revert X. induction suspicious as [|node rest IH]; intros X Hall; simpl;
    [by eexists|].
  destruct (at_cap X); [by eexists|].
  unfold predecessors, successors.
  rewrite !decide_True by (apply Hall; left). simpl.
  apply IH. intros a Ha. apply Hall. by right.
Qed.

(** A suspicious node that is not in the graph stops the loop with an
    error unless the cap was reached before. *)
Lemma add_neighbourhoods_raises G suspicious (X Y : gset string) :
  add_neighbourhoods G suspicious X = Some Y →
  at_cap Y = true ∨ ∀ a, a ∈ suspicious → a ∈ view_nodes G.
Proof.
  revert X. induction suspicious as [|node rest IH]; intros X; simpl.
  - intros _. right. by intros a Ha%elem_of_nil.
  - destruct (at_cap X) eqn:Hcap; [intros [= <-]; by left|].
    destruct (predecessors G node) as [preds|] eqn:Hp; [|done]. simpl.
    destruct (successors G node) as [succs|] eqn:Hs; [|done]. simpl.
    intros [H | H]%IH; [by left|]. right.
    intros a [-> | Ha]%elem_of_cons; [|by apply H].
    unfold predecessors in Hp. by case_decide.
Qed.

(** The filling loop keeps what is included, adds only nodes of the graph,
    stays within the cap when it starts below it, and stops early only at
    the cap. *)
Lemma fill_nodes_spec nodes (X : gset string) :
  X ⊆ fill_nodes nodes X
  ∧ fill_nodes nodes X ⊆ X ∪ list_to_set nodes
  ∧ (at_cap X = false → (Z.of_nat (size (fill_nodes nodes X)) ≤ MAXN)%Z)
  ∧ (at_cap (fill_nodes nodes X) = true
     ∨ ∀ a, a ∈ nodes → a ∈ fill_nodes nodes X).
Proof.
  revert X. induction nodes as [|node nodes IH]; intros X; simpl.
  - split; [done|]. split; [apply union_subseteq_l|]. split.
    + intros H%at_cap_false. lia.
    + right. by intros a Ha%elem_of_nil.
  - set (X' := if decide (node ∈ X) then X else {[node]} ∪ X).
    assert (HX : X ⊆ X').
    { unfold X'. case_decide; [done | apply union_subseteq_r]. }
    assert (HX' : X' ⊆ X ∪ ({[node]} ∪ list_to_set nodes)).
    { unfold X'. case_decide; [apply union_subseteq_l|].
      apply union_least; [|apply union_subseteq_l].
      etrans; [|apply union_subseteq_r]. apply union_subseteq_l. }
    assert (Hnode : node ∈ X').
    { unfold X'. case_decide; [done|]. apply elem_of_union. left.
      by apply elem_of_singleton. }
    assert (Hsz : size X' ≤ S (size X)).
    { unfold X'. case_decide; [lia | apply size_add_one]. }
    destruct (at_cap X') eqn:Hcap.
    + split; [done|]. split; [done|]. split; [|by left].
      intros H%at_cap_false. lia.
    + destruct (IH X') as (H1 & H2 & H3 & H4).
      split; [by etrans|]. split; [|split].
      * etrans; [exact H2|]. apply union_least; [done|].
        etrans; [|apply union_subseteq_r]. apply union_subseteq_r.
      * intros _. by apply H3.
      * destruct H4 as [H4 | H4]; [by left|]. right.
        intros a [-> | Ha]%elem_of_cons; [by apply H1 | by apply H4].
Qed.

(** The set of nodes shown. *)
Lemma included_spec G (suspicious_ids Y : gset string) :
  well_formed_view G →
  included G suspicious_ids = Some Y →
  suspicious_ids ⊆ Y
  ∧ (∀ a, a ∈ Y → a ∈ suspicious_ids ∨ a ∈ view_nodes G)
  ∧ (Z.of_nat (size Y) ≤ Z.of_nat (size suspicious_ids) `max` MAXN)%Z
  ∧ (at_cap Y = true ∨ ∀ a, a ∈ view_nodes G → a ∈ Y).
Proof.
  intros Hwf. unfold Main.included.
  destruct (at_cap suspicious_ids) eqn:Hcap; simpl.
  - rewrite Hcap. intros [= <-]. split; [done|]. split; [by left|].
    split; [lia | by left].
  - destruct (add_neighbourhoods G (elements suspicious_ids) suspicious_ids)
      as [W|] eqn:HW; [|done]. simpl.
    apply add_neighbourhoods_spec in HW as (H1 & H2 & H3); [|done].
    specialize (H3 (Z.of_nat (size suspicious_ids) `max` MAXN)%Z).
    destruct (at_cap W) eqn:HcapW; intros [= <-].
    + split; [done|]. split; [done|]. split; [apply H3; lia | by left].
    + destruct (fill_nodes_spec (view_nodes G) W) as (F1 & F2 & F3 & F4).
      split; [by etrans|]. split; [|split; [specialize (F3 HcapW); lia | done]].
      intros a [Ha | Ha]%F2%elem_of_union; [by apply H2|].
      right. by apply elem_of_list_to_set in Ha.
Qed.

Lemma included_returns G (suspicious_ids : gset string) :
  (∀ a, a ∈ suspicious_ids → a ∈ view_nodes G) →
  is_Some (included G suspicious_ids).
Proof.
  intros Hall. unfold Main.included.
  destruct (at_cap suspicious_ids); simpl; [by eexists|].
  destruct (add_neighbourhoods_returns G (elements suspicious_ids)
              suspicious_ids) as [W ->]; [|by eexists].
  intros a Ha%elem_of_elements. by apply Hall.
Qed.

(** One node entry: built exactly for a node of the graph. *)
Lemma viz_node_spec G results (suspicious_ids : gset string) node :
  (node ∈ view_nodes G → is_Some (viz_node G results suspicious_ids node))
  ∧ ∀ n, viz_node G results suspicious_ids node = Some n →
         node ∈ view_nodes G ∧ node_id n = node
         ∧ node_suspicious n = bool_decide (node ∈ suspicious_ids)
         ∧ 1 ≤ node_border_width n ≤ 4
         ∧ (node_suspicious n = false →
            node_border_width n = 1 ∧ node_color n = "#336699"%string).
Proof.
  unfold viz_node. destruct (decide (node ∈ view_nodes G)) as [Hin | Hnin];
    [|split; [done | by intros n]].
  destruct (bool_decide (node ∈ suspicious_ids)) eqn:Hs; simpl.
  - destruct (Qle_bool 70 _); simpl.
    { split; [by eexists|]. intros n [= <-]. simpl. repeat split; (lia || done). }
    destruct (Qle_bool 40 _); simpl.
    { split; [by eexists|]. intros n [= <-]. simpl. repeat split; (lia || done). }
    split; [by eexists|]. intros n [= <-]. simpl. repeat split; (lia || done).
  - split; [by eexists|]. intros n [= <-]. simpl. repeat split; (lia || done).
Qed.

(** What a returned value was built from. *)
Lemma build_inv G results d :
  build G results = Some d →
  let suspicious_ids : gset string :=
    list_to_set (account_id <$> suspicious_accounts results) in
  ∃ Y, included G suspicious_ids = Some Y
       ∧ Forall2 (λ a n, viz_node G results suspicious_ids a = Some n)
           (elements Y) (viz_nodes d)
       ∧ viz_edges d = viz_edge_loop Y suspicious_ids (view_edges G) 0
       ∧ truncated d
         = bool_decide (MAXN < Z.of_nat (length (view_nodes G)))%Z
           || bool_decide (MAXE < Z.of_nat (length (view_edges G)))%Z
       ∧ total_nodes d = length (view_nodes G)
       ∧ total_edges d = length (view_edges G).
Proof.
  unfold _build_graph_viz_data. intros H.
  destruct (included G _) as [Y|] eqn:HY; [|done]. simpl in H.
  destruct (mapM _ (elements Y)) as [ns|] eqn:Hns; [|done]. simpl in H.
  injection H as <-. simpl. exists Y. split; [done|].
  split; [by apply mapM_Some_1|]. done.
Qed.

Lemma node_ids_of G results (suspicious_ids : gset string) l ns :
  Forall2 (λ a n, viz_node G results suspicious_ids a = Some n) l ns →
  node_id <$> ns = l.
Proof.
  induction 1 as [|a n l ns Hn _ IH]; [done|].
  rewrite fmap_cons, IH. f_equal. by apply viz_node_spec in Hn as (_ & ? & _).
Qed.

(** The edge of the graph an entry of [edges] was made of. *)
Lemma edge_width_bounds (amount : Q) :
  (1 <= Qmax 1 (Qmin 5 (amount / 5000)) ∧ Qmax 1 (Qmin 5 (amount / 5000)) <= 5)%Q.
Proof.
  split; [apply Q.le_max_l|].
  apply Q.max_lub; [done | apply Q.le_min_l].
Qed.

Lemma viz_edge_loop_spec (Y suspicious_ids : gset string) edges count :
  (∀ e, e ∈ viz_edge_loop Y suspicious_ids edges count →
     edge_from e ∈ Y ∧ edge_to e ∈ Y
     ∧ (edge_from e, edge_to e, (edge_amount e, edge_tx_count e)) ∈ edges
     ∧ edge_suspicious e
       = bool_decide (edge_from e ∈ suspicious_ids)
         && bool_decide (edge_to e ∈ suspicious_ids)
     ∧ (1 <= edge_width e ∧ edge_width e <= 5)%Q)
  ∧ (Z.of_nat (length (viz_edge_loop Y suspicious_ids edges count))
     ≤ (MAXE - count) `max` 0)%Z
  ∧ ((λ e, (edge_from e, edge_to e, (edge_amount e, edge_tx_count e)))
       <$> viz_edge_loop Y suspicious_ids edges count) `sublist_of` edges.
Proof.
  revert count.
  induction edges as [|[[u v] [amount tx]] edges IH]; intros count; simpl.
  - split; [by intros e He%elem_of_nil|]. split; [lia | done].
  - destruct (decide (u ∈ Y)) as [Hu | Hu], (decide (v ∈ Y)) as [Hv | Hv];
      rewrite ?(bool_decide_eq_true_2 _ Hu), ?(bool_decide_eq_false_2 _ Hu),
        ?(bool_decide_eq_true_2 _ Hv), ?(bool_decide_eq_false_2 _ Hv); simpl.
    2-4: destruct (IH count) as (H1 & H2 & H3);
         (split; [intros e He; destruct (H1 e He) as (? & ? & ? & ? & ?);
                  split; [done|]; split; [done|]; split; [by right|];
                  by split|]);
         (split; [done | by apply sublist_cons]).
    destruct (Z.leb_spec MAXE count) as [Hfull | Hroom].
    + split; [by intros e He%elem_of_nil|]. split; [simpl; lia|].
      apply sublist_nil_l.
    + destruct (IH (count + 1)%Z) as (H1 & H2 & H3). split; [|split].
      * intros e [-> | He]%elem_of_cons.
        -- simpl. split; [done|]. split; [done|]. split; [left|].
           split; [done|].
           destruct (bool_decide (u ∈ suspicious_ids)
                     && bool_decide (v ∈ suspicious_ids));
             [apply edge_width_bounds|].
           split; unfold Qle; simpl; lia.
        -- destruct (H1 e He) as (? & ? & ? & ? & ?).
           split; [done|]. split; [done|]. split; [by right|]. by split.
      * simpl length. lia.
      * rewrite fmap_cons. simpl. by apply sublist_skip.
Qed.

(** With room for every edge and every end shown, every edge is shown. *)
Lemma viz_edge_loop_all (Y suspicious_ids : gset string) edges count :
  (∀ e, e ∈ edges → e.1.1 ∈ Y ∧ e.1.2 ∈ Y) →
  (count + Z.of_nat (length edges) ≤ MAXE)%Z →
  (λ e, (edge_from e, edge_to e, (edge_amount e, edge_tx_count e)))
    <$> viz_edge_loop Y suspicious_ids edges count = edges.
Proof.
  revert count.
  induction edges as [|[[u v] [amount tx]] edges IH]; intros count Hends Hroom;
    simpl; [done|].
  destruct (Hends (u, v, (amount, tx))) as [Hu Hv]; [left|]. simpl in Hu, Hv.
  rewrite (bool_decide_eq_true_2 _ Hu), (bool_decide_eq_true_2 _ Hv). simpl.
  simpl length in Hroom.
  destruct (Z.leb_spec MAXE count) as [Hfull | _]; [lia|].
  rewrite fmap_cons. simpl. f_equal. apply IH; [|lia].
  intros e He. apply Hends. by right.
Qed.

(** The nodes of the visualisation.  When the function returns, every
    flagged account is shown and marked suspicious, even beyond the cap; no
    node is shown twice and every shown node is a node of the graph; apart
    from the flagged accounts the node list stays within
    [MAX_GRAPH_VIZ_NODES]: its length is at most the larger of the cap and
    the number of flagged accounts. *)
Theorem viz_nodes_capped (G : GraphView) (results : VizResults) (d : VizData) :
  well_formed_view G →
  build G results = Some d →
  (∀ sa, sa ∈ suspicious_accounts results →
         ∃ n, n ∈ viz_nodes d ∧ node_id n = account_id sa
              ∧ node_suspicious n = true)
  ∧ NoDup (node_id <$> viz_nodes d)
  ∧ (∀ n, n ∈ viz_nodes d →
          node_id n ∈ view_nodes G
          ∧ (node_suspicious n = true
             ↔ node_id n ∈ account_id <$> suspicious_accounts results))
  ∧ (Z.of_nat (length (viz_nodes d))
     ≤ Z.of_nat (size (list_to_set (account_id <$> suspicious_accounts results)
                         : gset string)) `max` MAXN)%Z.
Proof.
  intros Hwf (Y & HY & Hnodes & _)%build_inv.
  apply included_spec in HY as (Hsus & _ & Hsize & _); [|done].
  pose proof (node_ids_of _ _ _ _ _ Hnodes) as Hids.
  split; [|split; [|split]].
  - intros sa Hsa.
    assert (Hin : account_id sa ∈ elements Y).
    { apply elem_of_elements, Hsus, elem_of_list_to_set.
      by apply list_elem_of_fmap_2. }
    rewrite <- Hids in Hin.
    apply list_elem_of_fmap in Hin as (n & Hid & Hn). exists n.
    split; [done|]. split; [done|].
    apply list_elem_of_lookup in Hn as [i Hi].
    destruct (Forall2_lookup_r _ _ _ _ _ Hnodes Hi) as (a & Ha & Hv).
    apply viz_node_spec in Hv as (_ & Hida & Hsusp & _).
    rewrite Hsusp. apply bool_decide_eq_true_2, elem_of_list_to_set.
    rewrite <- Hida, <- Hid. by apply list_elem_of_fmap_2.
  - rewrite Hids. apply NoDup_elements.
  - intros n Hn. apply list_elem_of_lookup in Hn as [i Hi].
    destruct (Forall2_lookup_r _ _ _ _ _ Hnodes Hi) as (a & Ha & Hv).
    apply viz_node_spec in Hv as (Hin & Hida & Hsusp & _).
    split; [by rewrite Hida|]. rewrite Hsusp, Hida.
    rewrite bool_decide_eq_true. apply elem_of_list_to_set.
  - rewrite <- (length_fmap node_id), Hids. exact Hsize.
Qed.

(** The edges of the visualisation.  Every shown edge is an edge of the
    graph with both ends among the shown nodes, in the order of the graph;
    it is marked suspicious exactly when both ends are flagged, and its
    width lies between 1 and 5; at most [MAX_GRAPH_VIZ_EDGES] edges are
    shown (none for a cap that is not positive). *)
Theorem viz_edges_capped (G : GraphView) (results : VizResults) (d : VizData) :
  build G results = Some d →
  (∀ e, e ∈ viz_edges d →
     edge_from e ∈ node_id <$> viz_nodes d
     ∧ edge_to e ∈ node_id <$> viz_nodes d
     ∧ (edge_from e, edge_to e, (edge_amount e, edge_tx_count e))
       ∈ view_edges G
     ∧ (edge_suspicious e = true
        ↔ edge_from e ∈ account_id <$> suspicious_accounts results
          ∧ edge_to e ∈ account_id <$> suspicious_accounts results)
     ∧ (1 <= edge_width e ∧ edge_width e <= 5)%Q)
  ∧ (Z.of_nat (length (viz_edges d)) ≤ MAXE `max` 0)%Z
  ∧ ((λ e, (edge_from e, edge_to e, (edge_amount e, edge_tx_count e)))
       <$> viz_edges d) `sublist_of` view_edges G.
Proof.
  intros (Y & HY & Hnodes & -> & _)%build_inv.
  pose proof (node_ids_of _ _ _ _ _ Hnodes) as Hids.
  destruct (viz_edge_loop_spec Y
              (list_to_set (account_id <$> suspicious_accounts results))
              (view_edges G) 0) as (H1 & H2 & H3).
  split; [|split; [lia | done]].
  intros e (Hf & Ht & Hin & Hs & Hw)%H1. rewrite Hids.
  split; [by apply elem_of_elements|]. split; [by apply elem_of_elements|].
  split; [done|]. split; [|done].
  rewrite Hs, andb_true_iff, !bool_decide_eq_true, !elem_of_list_to_set. done.
Qed.

(** When the function raises.  On a graph as networkx keeps it, it returns
    exactly when every flagged account is a node of the graph; a flagged
    account that the graph does not contain makes it raise, even with the
    cap reached. *)
Theorem viz_returns_iff (G : GraphView) (results : VizResults) :
  well_formed_view G →
  is_Some (build G results)
  ↔ ∀ sa, sa ∈ suspicious_accounts results → account_id sa ∈ view_nodes G.
Proof.
  intros Hwf. split.
  - intros [d Hd] sa Hsa.
    pose proof Hd as (Y & HY & Hnodes & _)%build_inv.
    apply included_spec in HY as (Hsus & _); [|done].
    assert (Hin : account_id sa ∈ elements Y).
    { apply elem_of_elements, Hsus, elem_of_list_to_set.
      by apply list_elem_of_fmap_2. }
    apply list_elem_of_lookup in Hin as [i Hi].
    destruct (Forall2_lookup_l _ _ _ _ _ Hnodes Hi) as (n & _ & Hv).
    by apply viz_node_spec in Hv as (? & _).
  - intros Hall. unfold _build_graph_viz_data.
    set (ids := list_to_set (account_id <$> suspicious_accounts results)
                : gset string).
    assert (Hids : ∀ a, a ∈ ids → a ∈ view_nodes G).
    { intros a (sa & -> & Hsa)%elem_of_list_to_set%list_elem_of_fmap.
      by apply Hall. }
    destruct (included_returns G ids Hids) as [Y HY]. rewrite HY. simpl.
    apply included_spec in HY as (_ & Hfrom & _); [|done].
    destruct (mapM (viz_node G results ids) (elements Y)) as [ns|] eqn:Hns;
      [by eexists|].
    exfalso. apply eq_None_not_Some in Hns. apply Hns.
    apply mapM_is_Some, Forall_forall. intros a Ha%elem_of_elements.
    apply viz_node_spec. destruct (Hfrom a Ha) as [Hs | Hn]; [by apply Hids|done].
Qed.

(** Without truncation nothing is left out.  When the function returns
    with [truncated] false, on a graph as networkx keeps it, every node of
    the graph is shown and the shown edges are all the edges of the graph,
    in their order. *)
Theorem viz_complete_unless_truncated (G : GraphView) (results : VizResults)
  (d : VizData) :
  well_formed_view G →
  build G results = Some d →
  truncated d = false →
  (∀ a, a ∈ view_nodes G ↔ a ∈ node_id <$> viz_nodes d)
  ∧ (λ e, (edge_from e, edge_to e, (edge_amount e, edge_tx_count e)))
      <$> viz_edges d = view_edges G.
Proof.
  intros Hwf Hd Htrunc.
  assert (Hall : ∀ sa, sa ∈ suspicious_accounts results →
                       account_id sa ∈ view_nodes G).
  { intros sa Hsa.
    pose proof Hd as (Y & HY & Hnodes & _)%build_inv.
    apply included_spec in HY as (Hsus & _); [|done].
    assert (Hin : account_id sa ∈ elements Y).
    { apply elem_of_elements, Hsus, elem_of_list_to_set.
      by apply list_elem_of_fmap_2. }
    apply list_elem_of_lookup in Hin as [i Hi].
    destruct (Forall2_lookup_l _ _ _ _ _ Hnodes Hi) as (n & _ & Hv).
    by apply viz_node_spec in Hv as (? & _). }
  apply build_inv in Hd as (Y & HY & Hnodes & -> & Ht & _).
  rewrite Ht in Htrunc. apply orb_false_iff in Htrunc as [Hn He].
  apply bool_decide_eq_false in Hn, He.
  pose proof (node_ids_of _ _ _ _ _ Hnodes) as Hids.
  apply included_spec in HY as (Hsus & Hfrom & _ & Hfull); [|done].
  destruct Hwf as [Hnd Hends].
  assert (Hsub : Y ⊆ list_to_set (view_nodes G)).
  { intros a Ha. apply elem_of_list_to_set.
    destruct (Hfrom a Ha) as [Hs | Hin]; [|done].
    apply elem_of_list_to_set, list_elem_of_fmap in Hs as (sa & -> & Hsa).
    by apply Hall. }
  assert (HY : ∀ a, a ∈ view_nodes G → a ∈ Y).
  { destruct Hfull as [Hcap | Hfill]; [|done].
    apply at_cap_true in Hcap.
    assert (Heq : Y = list_to_set (view_nodes G)).
    { apply set_subseteq_size_eq; [done|].
      rewrite size_list_to_set by done. lia. }
    intros a Ha. rewrite Heq. by apply elem_of_list_to_set. }
  split.
  - intros a. rewrite Hids, elem_of_elements. split; [apply HY|].
    intros Ha%Hsub. by apply elem_of_list_to_set in Ha.
  - apply viz_edge_loop_all; [|lia].
    intros e [H1 H2]%Hends. split; by apply HY.
Qed.

End VizFacts.

Section VizExamples.

Import Main.

Lemma example_view_well_formed : well_formed_view example_view.
Proof.
  split; [apply (bool_decide_unpack _); by vm_compute|].
  intros e He.
  repeat (apply elem_of_cons in He as [-> | He];
          [split; apply (bool_decide_unpack _); by vm_compute|]).
  by apply elem_of_nil in He.
Qed.

Lemma viz_nodes_capped_witness :
  ∃ d, _build_graph_viz_data 2 1 example_view example_results = Some d
       ∧ NoDup (node_id <$> viz_nodes d)
       ∧ (Z.of_nat (length (viz_nodes d)) ≤ 2)%Z.
Proof.
  assert (Hd : is_Some (_build_graph_viz_data 2 1 example_view example_results))
    by (by vm_compute; eexists).
  destruct Hd as [d Hd]. exists d. split; [done|].
  destruct (viz_nodes_capped 2 1 example_view example_results d
              example_view_well_formed Hd) as (_ & Hnd & _ & Hlen).
  split; [done|]. etrans; [exact Hlen|]. by vm_compute.
Defined.

Lemma viz_edges_capped_witness :
  ∃ d, _build_graph_viz_data 2 1 example_view example_results = Some d
       ∧ (Z.of_nat (length (viz_edges d)) ≤ 1)%Z.
Proof.
  assert (Hd : is_Some (_build_graph_viz_data 2 1 example_view example_results))
    by (by vm_compute; eexists).
  destruct Hd as [d Hd]. exists d. split; [done|].
  destruct (viz_edges_capped 2 1 example_view example_results d Hd)
    as (_ & Hlen & _).
  etrans; [exact Hlen|]. by vm_compute.
Defined.

Lemma viz_returns_iff_witness :
  is_Some (_build_graph_viz_data 800 2000 example_view example_results).
Proof.
  apply (viz_returns_iff 800 2000 example_view example_results
           example_view_well_formed).
  intros sa Hsa. apply list_elem_of_singleton in Hsa as ->.
  apply (bool_decide_unpack _). by vm_compute.
Defined.

Lemma viz_complete_unless_truncated_witness :
  ∃ d, _build_graph_viz_data 800 2000 example_view example_results = Some d
       ∧ (λ e, (edge_from e, edge_to e, (edge_amount e, edge_tx_count e)))
           <$> viz_edges d = view_edges example_view.
Proof.
  assert (Hd : ∃ d, _build_graph_viz_data 800 2000 example_view example_results
                    = Some d ∧ truncated d = false).
  { eexists. split; by vm_compute. }
  destruct Hd as (d & Hd & Ht). exists d. split; [done|].
  by destruct (viz_complete_unless_truncated 800 2000 example_view
                 example_results d example_view_well_formed Hd Ht) as [_ ?].
Defined.

End VizExamples.
